(** * Rspamd fuzzy storage server (src/fuzzy_storage.c)

    A shallow embedding of the fuzzy hash storage worker: the bucketed
    in-memory index guarded by a Bloom filter, the three commands of the
    wire protocol, the snapshot rewrite with expiry, the load at startup
    and the per-connection read callback.

    Machine integers are [Z] with their wrap-around written out
    ([uint32_t mods], [uint64_t time]).  The process-wide variables
    [hashes], [bf] and [mods] form the record [storage], which every
    operation receives and returns. *)

From Stdlib Require Import ZArith List Bool Lia.
From Stdlib Require Import Strings.String Strings.Ascii Strings.Byte.
Import ListNotations.
Open Scope Z_scope.

(** ** Constants ([#define]s at the top of fuzzy_storage.c) *)

Definition LEV_LIMIT : Z := 99.
Definition MOD_LIMIT : Z := 10000.
Definition DEFAULT_EXPIRE : Z := 172800.
Definition SYNC_TIMEOUT : Z := 60.
Definition BUCKETS : Z := 1024.

(** Conversions to [uint32_t] and [uint64_t]. *)
Definition wrap32 (x : Z) : Z := x mod 2 ^ 32.
Definition wrap64 (x : Z) : Z := x mod 2 ^ 64.

(** libevent's event kinds (event.h). *)
Definition EV_TIMEOUT : Z := 1.
Definition EV_READ : Z := 2.

(** ** Data *)

(** [fuzzy_hash_t] (fuzzy.h): the hash pipe and its block size. *)
Record fuzzy_hash_t := mk_fuzzy_hash {
  hash_pipe : list byte;
  block_size : Z                       (* uint32_t *)
}.

(** [struct rspamd_fuzzy_node]: fields [h] and [time]. *)
Record rspamd_fuzzy_node := mk_node {
  node_h : fuzzy_hash_t;
  node_time : Z                        (* uint64_t *)
}.

(** [struct fuzzy_cmd] (fuzzy_storage.h): fields [cmd], [blocksize], [hash]. *)
Record fuzzy_cmd := mk_cmd {
  cmd_cmd : Z;                         (* u_char *)
  cmd_blocksize : Z;                   (* uint32_t *)
  cmd_hash : list byte
}.

(** What the worker reads from [wrk->cf->params]. *)
Record worker_conf := mk_conf {
  param_hashfile : option string;
  param_expire : option string
}.

(** The collaborators fuzzy_storage.c includes but does not define:
    bloom.h, fuzzy.h, util.h and the layout of fuzzy_storage.h. *)
Class Externals := {
  bloom_filter_t : Type;
  bloom_check : bloom_filter_t -> list byte -> bool;
  bloom_add : bloom_filter_t -> list byte -> bloom_filter_t;
  bloom_del : bloom_filter_t -> list byte -> bloom_filter_t;
  fuzzy_compare_hashes : fuzzy_hash_t -> fuzzy_hash_t -> Z;
  parse_seconds : string -> Z;
  sizeof_rspamd_fuzzy_node : Z;
  sizeof_fuzzy_cmd : Z;
  FUZZY_CHECK : Z;
  FUZZY_WRITE : Z;
  FUZZY_DEL : Z;
  (* the bytes of a complete frame seen as a [struct fuzzy_cmd] *)
  fuzzy_cmd_of_bytes : list byte -> fuzzy_cmd
}.

(** A C array indexed by bucket number. *)
Definition array (A : Type) := Z -> A.

Definition array_set {A} (a : array A) (i : Z) (v : A) : array A :=
  fun j => if j =? i then v else a j.

(** [g_queue_push_head (hashes[i], node)]: a [GQueue] is the list of its
    links, head first. *)
Definition g_queue_push_head {A} (a : array (list A)) (i : Z) (v : A)
  : array (list A) :=
  array_set a i (v :: a i).

Section Storage.
Context {E : Externals}.

(** The statics [hashes], [bf] and [mods]. *)
Record storage := mk_storage {
  hashes : array (list rspamd_fuzzy_node);
  bf : bloom_filter_t;
  mods : Z                             (* uint32_t *)
}.

(** The [fuzzy_hash_t s] both scans build from the command. *)
Definition query_of (c : fuzzy_cmd) : fuzzy_hash_t :=
  {| hash_pipe := cmd_hash c; block_size := cmd_blocksize c |}.

(** ** process_check_command *)

(** The [while (cur)] loop: stop at the first link above [LEV_LIMIT]. *)
Fixpoint check_scan (s : fuzzy_hash_t) (cur : list rspamd_fuzzy_node) : bool :=
  match cur with
  | [] => false
  | n :: next =>
      if fuzzy_compare_hashes (node_h n) s >? LEV_LIMIT then true
      else check_scan s next
  end.

Definition process_check_command (c : fuzzy_cmd) (st : storage)
  : bool * storage :=
  if negb (bloom_check (bf st) (cmd_hash c)) then (false, st)
  else
    let s := query_of c in
    let cur := hashes st (cmd_blocksize c mod BUCKETS) in
    (check_scan s cur, st).

(** ** process_write_command *)

Definition process_write_command (now : Z) (c : fuzzy_cmd) (st : storage)
  : bool * storage :=
  if bloom_check (bf st) (cmd_hash c) then (false, st)
  else
    let n := {| node_h := {| hash_pipe := cmd_hash c;
                             block_size := cmd_blocksize c |};
                node_time := wrap64 now |} in
    (true,
     {| hashes := g_queue_push_head (hashes st) (cmd_blocksize c mod BUCKETS) n;
        bf := bloom_add (bf st) (cmd_hash c);
        mods := wrap32 (mods st + 1) |}).

(** ** process_delete_command *)

(** The loop state: what is left of the queue, the filter, [mods], [res]. *)
Record delete_state := mk_delete_state {
  del_queue : list rspamd_fuzzy_node;
  del_bf : bloom_filter_t;
  del_mods : Z;
  del_res : bool
}.

(** The [while (cur)] loop.  A link above [LEV_LIMIT] is unlinked, the
    filter is updated with the command's pipe, [res] is set and [mods]
    incremented; any other link is kept. *)
Fixpoint delete_scan (c : fuzzy_cmd) (s : fuzzy_hash_t)
    (cur : list rspamd_fuzzy_node) (b : bloom_filter_t) (m : Z) (res : bool)
  : delete_state :=
  match cur with
  | [] => mk_delete_state [] b m res
  | n :: next =>
      if fuzzy_compare_hashes (node_h n) s >? LEV_LIMIT then
        delete_scan c s next (bloom_del b (cmd_hash c)) (wrap32 (m + 1)) true
      else
        let r := delete_scan c s next b m res in
        mk_delete_state (n :: del_queue r) (del_bf r) (del_mods r) (del_res r)
  end.

Definition process_delete_command (c : fuzzy_cmd) (st : storage)
  : bool * storage :=
  if negb (bloom_check (bf st) (cmd_hash c)) then (false, st)
  else
    let s := query_of c in
    let i := cmd_blocksize c mod BUCKETS in
    let r := delete_scan c s (hashes st i) (bf st) (mods st) false in
    (del_res r,
     {| hashes := array_set (hashes st) i (del_queue r);
        bf := del_bf r;
        mods := del_mods r |}).

(** ** sync_cache *)

(** The test [now - node->time > expire], in [uint64_t] arithmetic. *)
Definition expired (now expire : Z) (n : rspamd_fuzzy_node) : bool :=
  wrap64 (now - node_time n) >? expire.

(** The value of [expire]: the "expire" parameter through [parse_seconds]
    (milliseconds) divided by 1000, or [DEFAULT_EXPIRE]. *)
Definition expire_of (wrk : worker_conf) : Z :=
  match param_expire wrk with
  | Some exp_str => wrap64 (Z.quot (parse_seconds exp_str) 1000)
  | None => DEFAULT_EXPIRE
  end.

(** State of the walk over one queue: the links kept, the filter and the
    node images handed to [write (fd, node, sizeof (struct
    rspamd_fuzzy_node))], oldest call first.  A failing [write] is only
    logged, so the walk does not depend on its result. *)
Record sync_state := mk_sync_state {
  sync_queue : list rspamd_fuzzy_node;
  sync_bf : bloom_filter_t;
  sync_out : list rspamd_fuzzy_node
}.

(** The inner [while (cur)] loop of [sync_cache]. *)
Fixpoint sync_queue_walk (now expire : Z) (cur : list rspamd_fuzzy_node)
    (b : bloom_filter_t) (out : list rspamd_fuzzy_node) : sync_state :=
  match cur with
  | [] => mk_sync_state [] b out
  | n :: next =>
      if expired now expire n then
        (* Remove expired item *)
        sync_queue_walk now expire next (bloom_del b (hash_pipe (node_h n))) out
      else
        let r := sync_queue_walk now expire next b (out ++ [n]) in
        mk_sync_state (n :: sync_queue r) (sync_bf r) (sync_out r)
  end.

(** The outer [for (i = 0; i < BUCKETS; i ++)] loop; [k] iterations are
    left and the next one is for bucket [i]. *)
Fixpoint sync_buckets (now expire : Z) (k : nat) (i : Z)
    (hs : array (list rspamd_fuzzy_node)) (b : bloom_filter_t)
    (out : list rspamd_fuzzy_node)
  : array (list rspamd_fuzzy_node) * bloom_filter_t * list rspamd_fuzzy_node :=
  match k with
  | O => (hs, b, out)
  | S k' =>
      let r := sync_queue_walk now expire (hs i) b out in
      sync_buckets now expire k' (i + 1)
        (array_set hs i (sync_queue r)) (sync_bf r) (sync_out r)
  end.

(** What [sync_cache] did to the hash file: nothing, or the file named
    was truncated and the listed node images written to it, in order. *)
Definition file_rewrite := option (string * list rspamd_fuzzy_node).

(** [sync_cache].  [open_ok f] tells whether
    [open (f, O_WRONLY | O_TRUNC | O_CREAT, ...)] succeeds and [now] is the
    value of [time (NULL)]. *)
Definition sync_cache (wrk : worker_conf) (open_ok : string -> bool)
    (now : Z) (st : storage) : storage * file_rewrite :=
  (* Check for modifications *)
  if mods st <? MOD_LIMIT then (st, None)
  else
    match param_hashfile wrk with
    | None => (st, None)
    | Some filename =>
        let expire := expire_of wrk in
        if negb (open_ok filename) then (st, None)
        else
          let '(hs, b, out) :=
            sync_buckets (wrap64 now) expire (Z.to_nat BUCKETS) 0
              (hashes st) (bf st) [] in
          ({| hashes := hs; bf := b; mods := mods st |},
           Some (filename, out))
    end.

(** [sigterm_handler]: force the limit and sync. *)
Definition sigterm_handler (wrk : worker_conf) (open_ok : string -> bool)
    (now : Z) (st : storage) : storage * file_rewrite :=
  sync_cache wrk open_ok now
    {| hashes := hashes st; bf := bf st; mods := MOD_LIMIT + 1 |}.

(** [sync_callback]: the timer rearms itself and calls [sync_cache]. *)
Definition sync_callback (wrk : worker_conf) (open_ok : string -> bool)
    (now : Z) (st : storage) : storage * file_rewrite :=
  sync_cache wrk open_ok now st.

(** ** read_hashes_file *)

(** One [read (fd, node, sizeof (struct rspamd_fuzzy_node))]: the value
    returned and the buffer seen as a node (meaningful when the read was
    complete). *)
Record node_read := mk_node_read {
  nr_ret : Z;
  nr_node : rspamd_fuzzy_node
}.

(** The [for (;;)] loop over the successive results of [read]; past the
    last listed result the file is at its end and [read] returns 0.
    Returns the last [r] with the index and the filter. *)
Fixpoint read_loop (reads : list node_read)
    (hs : array (list rspamd_fuzzy_node)) (b : bloom_filter_t)
  : Z * array (list rspamd_fuzzy_node) * bloom_filter_t :=
  match reads with
  | [] => (0, hs, b)
  | rd :: rest =>
      if negb (nr_ret rd =? sizeof_rspamd_fuzzy_node) then (nr_ret rd, hs, b)
      else
        let node := nr_node rd in
        read_loop rest
          (g_queue_push_head hs (block_size (node_h node) mod BUCKETS) node)
          (bloom_add b (hash_pipe (node_h node)))
  end.

(** [read_hashes_file].  [open_rd f] is the outcome of
    [open (f, O_RDONLY)]: [None] when it fails, else the results of the
    reads on the descriptor. *)
Definition read_hashes_file (wrk : worker_conf)
    (open_rd : string -> option (list node_read)) (st : storage)
  : bool * storage :=
  (* hashes[i] = g_queue_new () *)
  let st0 := {| hashes := fun _ => []; bf := bf st; mods := mods st |} in
  match param_hashfile wrk with
  | None => (false, st0)
  | Some filename =>
      match open_rd filename with
      | None => (false, st0)
      | Some reads =>
          let '(r, hs, b) := read_loop reads (hashes st0) (bf st0) in
          let st1 := {| hashes := hs; bf := b; mods := mods st |} in
          if r >? 0 then (true, st1)          (* garbage at the end: warn *)
          else if r =? -1 then (false, st1)
          else (true, st1)
      end
  end.

(** ** Sessions *)

(** [struct fuzzy_session]: the descriptor, the bytes of [cmd] received so
    far and [pos] as an offset from [&session->cmd]. *)
Record fuzzy_session := mk_session {
  session_fd : Z;
  session_cmd : list byte;
  session_pos : Z
}.

(** What a handler does to the outside, in order. *)
Inductive action :=
| Act_process (c : fuzzy_cmd)          (* process_fuzzy_command entered *)
| Act_write (fd : Z) (line : string)    (* write (fd, line, ...) *)
| Act_log_err                           (* msg_err *)
| Act_event_del (fd : Z)
| Act_close (fd : Z).

Definition CRLF : string := String "013" (String "010" EmptyString).
Definition reply_ok : string := "OK" ++ CRLF.
Definition reply_err : string := "ERR" ++ CRLF.

(** [free_session]: delete the event, close the socket, free the session. *)
Definition free_session (session : fuzzy_session) : list action :=
  [Act_event_del (session_fd session); Act_close (session_fd session)].

(** [if (write (fd, line, ...) == -1) msg_err (...)]: the reply line is
    written and a failure of the write is logged; [wr] is the value
    [write] returns. *)
Definition write_reply (fd : Z) (wr : Z) (line : string) : list action :=
  if wr =? -1 then [Act_write fd line; Act_log_err]
  else [Act_write fd line].

(** The macro [CMD_PROCESS]. *)
Definition CMD_PROCESS (fd : Z) (wr : Z) (res : bool * storage)
  : storage * list action :=
  if fst res then (snd res, write_reply fd wr reply_ok)
  else (snd res, write_reply fd wr reply_err).

(** [process_fuzzy_command] on the command held by the session; [wr] is
    what the [write] of the reply returns. *)
Definition process_fuzzy_command (wr : Z) (now : Z) (fd : Z) (c : fuzzy_cmd)
    (st : storage) : storage * list action :=
  let '(st', acts) :=
    if cmd_cmd c =? FUZZY_CHECK then
      CMD_PROCESS fd wr (process_check_command c st)
    else if cmd_cmd c =? FUZZY_WRITE then
      CMD_PROCESS fd wr (process_write_command now c st)
    else if cmd_cmd c =? FUZZY_DEL then
      CMD_PROCESS fd wr (process_delete_command c st)
    else (st, write_reply fd wr reply_err) in
  (st', Act_process c :: acts).

(** One [read (fd, session->pos, count)] on the socket: the value
    returned and the bytes stored at [session->pos]. *)
Record sock_read := mk_sock_read {
  sr_ret : Z;
  sr_bytes : list byte
}.

(** [fuzzy_io_callback].  The session returned is [None] once it has
    been freed; [rd] is the outcome of the [read] and [wr] what the
    [write] of a reply returns. *)
Definition fuzzy_io_callback (what : Z) (rd : sock_read) (wr : Z) (now : Z)
    (session : fuzzy_session) (st : storage)
  : option fuzzy_session * storage * list action :=
  if what =? EV_READ then
    let r := sr_ret rd in
    if r =? -1 then
      (None, st, Act_log_err :: free_session session)
    else if session_pos session + r =? sizeof_fuzzy_cmd then
      (* Assume that the whole command was read *)
      let c := fuzzy_cmd_of_bytes (session_cmd session ++ sr_bytes rd) in
      let '(st', acts) :=
        process_fuzzy_command wr now (session_fd session) c st in
      (None, st', acts ++ free_session session)
    else
      (Some {| session_fd := session_fd session;
               session_cmd := session_cmd session ++ sr_bytes rd;
               session_pos := session_pos session + r |},
       st, [])
  else
    (None, st, free_session session).

(** [accept_fuzzy_socket]: the session created for descriptor [nfd]. *)
Definition accept_session (nfd : Z) : fuzzy_session :=
  {| session_fd := nfd; session_cmd := []; session_pos := 0 |}.

End Storage.

(** ** A model of the collaborators

    Concrete collaborators on which the operations above can be run. *)

Module Model.

Definition byte_val (b : byte) : Z := Z.of_N (Byte.to_N b).

(** Modelled from the spec: bloom.c is missing.  Section 4.1: a bit array
    of 20,000,000 bits; [add] sets the bits [h1 + i * h2] given by double
    hashing of the pipe, [del] clears those bits, [maybeContains] tests
    them.  The array is kept as the list of the indices of its set bits. *)
Definition bloom_size : Z := 20000000.
Definition bloom_nfuncs : nat := 4.

Definition hash1 (p : list byte) : Z :=
  fold_left (fun a b => (a * 31 + byte_val b) mod bloom_size) p 0.
Definition hash2 (p : list byte) : Z :=
  fold_left (fun a b => (a * 131 + byte_val b + 1) mod bloom_size) p 7.

Definition bloom_bits (p : list byte) : list Z :=
  map (fun i => (hash1 p + Z.of_nat i * hash2 p) mod bloom_size)
      (seq 0 bloom_nfuncs).

Definition bit_set (b : list Z) (i : Z) : bool := existsb (Z.eqb i) b.

(** Modelled from the spec: [bloom_check] of the missing bloom.c,
    [maybeContains] of section 4.1: every bit of the pipe is set. *)
Definition bloom_check (b : list Z) (p : list byte) : bool :=
  forallb (bit_set b) (bloom_bits p).

(** Modelled from the spec: [bloom_add] of the missing bloom.c, [add] of
    section 4.1: set the bits of the pipe. *)
Definition bloom_add (b : list Z) (p : list byte) : list Z :=
  bloom_bits p ++ b.

(** Modelled from the spec: [bloom_del] of the missing bloom.c, [del] of
    section 4.1 in its bit-clearing form: clear the bits of the pipe. *)
Definition bloom_del (b : list Z) (p : list byte) : list Z :=
  filter (fun i => negb (bit_set (bloom_bits p) i)) b.

(** One row of the edit-distance table from the row above it: [prev] is
    the rest of the row above starting at the diagonal cell and [left] the
    cell just computed. *)
Fixpoint lev_row (a : byte) (bs : list byte) (prev : list Z) (left : Z)
  : list Z :=
  match bs, prev with
  | b :: bs', diag :: ((up :: _) as prev') =>
      let v := Z.min (Z.min (up + 1) (left + 1))
                     (diag + if Byte.eqb a b then 0 else 1) in
      v :: lev_row a bs' prev' v
  | _, _ => []
  end.

Definition lev_distance (p q : list byte) : Z :=
  let row0 := map Z.of_nat (seq 0 (S (List.length q))) in
  let step row a :=
    let first := hd 0 row + 1 in first :: lev_row a q row first in
  last (fold_left step p row0) 0.

(** Modelled from the spec: [fuzzy_compare_hashes] of the missing
    fuzzy.c.  Section 4.2: a score in 0..100 based on the edit distance of
    the two pipes, 0 when the block sizes differ, symmetric, total and 100
    on equal hashes.  Here the distance is scaled by the two lengths. *)
Definition fuzzy_compare_hashes (h1 h2 : fuzzy_hash_t) : Z :=
  if negb (block_size h1 =? block_size h2) then 0
  else
    let l :=
      Z.of_nat (List.length (hash_pipe h1) + List.length (hash_pipe h2)) in
    if l =? 0 then 100
    else 100 - (100 * lev_distance (hash_pipe h1) (hash_pipe h2)) / l.

(** The decimal number a string starts with. *)
Fixpoint parse_digits (s : string) (acc : Z) : Z :=
  match s with
  | EmptyString => acc
  | String c rest =>
      let d := Z.of_nat (nat_of_ascii c) - 48 in
      if (0 <=? d) && (d <=? 9) then parse_digits rest (10 * acc + d)
      else acc
  end.
(** Modelled from the spec: [parse_seconds] of the missing util.c.
    Section 6: the expire parameter is a number of seconds; [sync_cache]
    divides the result by 1000, so the result is in milliseconds. *)
Definition parse_seconds (s : string) : Z := 1000 * parse_digits s 0.

(** Modelled from the spec: fuzzy.h and fuzzy_storage.h are missing.
    Sections 4.5 and 6: a 64-byte pipe, a 32-bit block size and a 64-bit
    time in a node; a command byte, a 32-bit block size and the pipe in a
    frame, host-endian, with the padding of the platform (here the
    little-endian LP64 one); CHECK=0, WRITE=1, DELETE=2. *)
Definition FUZZY_HASHLEN : Z := 64.

(** Modelled from the spec: the size of [struct rspamd_fuzzy_node] with
    the missing fuzzy.h: 64 + 4 bytes, 4 of padding, 8 of time. *)
Definition sizeof_rspamd_fuzzy_node : Z := 80.

(** Modelled from the spec: the size of [struct fuzzy_cmd] of the missing
    fuzzy_storage.h: 1 byte, 3 of padding, 4 + 64 bytes. *)
Definition sizeof_fuzzy_cmd : Z := 72.

Definition le_uint (l : list byte) : Z :=
  fold_right (fun b acc => byte_val b + 256 * acc) 0 l.

(** Modelled from the spec: the layout of [struct fuzzy_cmd] of the
    missing fuzzy_storage.h, section 4.5. *)
Definition fuzzy_cmd_of_bytes (l : list byte) : fuzzy_cmd :=
  {| cmd_cmd := byte_val (nth 0 l x00);
     cmd_blocksize := le_uint (firstn 4 (skipn 4 l));
     cmd_hash := firstn 64 (skipn 8 l) |}.

Definition externals : Externals :=
  Build_Externals (list Z) bloom_check bloom_add bloom_del
    fuzzy_compare_hashes parse_seconds
    sizeof_rspamd_fuzzy_node sizeof_fuzzy_cmd
    0 1 2                         (* FUZZY_CHECK, FUZZY_WRITE, FUZZY_DEL *)
    fuzzy_cmd_of_bytes.

(** The store of a worker that has just started without a hash file. *)
Definition empty : storage (E := externals) :=
  mk_storage (E := externals) (fun _ => []) ([] : list Z) 0.

Definition pipe_of (s : string) : list byte := list_byte_of_string s.

Definition pipe_a : list byte :=
  pipe_of "aaaaaaaaaaaaaaaaaaaaaaaaaaaaaaaaaaaaaaaaaaaaaaaaaaaaaaaaaaaaaaaa".
Definition pipe_b : list byte :=
  pipe_of "baaaaaaaaaaaaaaaaaaaaaaaaaaaaaaaaaaaaaaaaaaaaaaaaaaaaaaaaaaaaaaa".
Definition pipe_z : list byte :=
  pipe_of "zzzzzzzzzzzzzzzzzzzzzzzzzzzzzzzzzzzzzzzzzzzzzzzzzzzzzzzzzzzzzzzz".

End Model.

(** ** Vocabulary of the statements *)

Section Vocabulary.
Context {E : Externals}.

(** A stored node is a match of the command: its score against the
    query is above [LEV_LIMIT]. *)
Definition matches (c : fuzzy_cmd) (n : rspamd_fuzzy_node) : bool :=
  fuzzy_compare_hashes (node_h n) (query_of c) >? LEV_LIMIT.

(** The nodes a delete command unlinks from its bucket. *)
Definition removed (c : fuzzy_cmd) (st : storage) : list rspamd_fuzzy_node :=
  filter (matches c) (hashes st (cmd_blocksize c mod BUCKETS)).

(** [bloom_del] of one pipe, [k] times. *)
Definition bloom_del_times (k : nat) (p : list byte) (b : bloom_filter_t)
  : bloom_filter_t :=
  Nat.iter k (fun b' => bloom_del b' p) b.

(** The bucket numbers of [k] turns of the [for] loop of [sync_cache]
    starting at [i]. *)
Fixpoint bucket_range (k : nat) (i : Z) : list Z :=
  match k with
  | O => []
  | S k' => i :: bucket_range k' (i + 1)
  end.

Definition all_buckets : list Z := bucket_range (Z.to_nat BUCKETS) 0.

(** A node that survives the rewrite. *)
Definition fresh (now expire : Z) (n : rspamd_fuzzy_node) : bool :=
  negb (expired now expire n).

(** All nodes of the index in the order [sync_cache] walks them. *)
Definition walk_order (hs : array (list rspamd_fuzzy_node)) (idx : list Z)
  : list rspamd_fuzzy_node :=
  flat_map hs idx.

(** The pipes of the nodes that are expired, in walk order. *)
Definition expired_pipes (now expire : Z) (l : list rspamd_fuzzy_node)
  : list (list byte) :=
  map (fun n => hash_pipe (node_h n)) (filter (expired now expire) l).

(** The index after loading the listed nodes, first node first. *)
Definition load_nodes (l : list rspamd_fuzzy_node)
    (hs : array (list rspamd_fuzzy_node)) : array (list rspamd_fuzzy_node) :=
  fold_left
    (fun a n => g_queue_push_head a (block_size (node_h n) mod BUCKETS) n) l hs.

Definition load_pipes (l : list rspamd_fuzzy_node) (b : bloom_filter_t)
  : bloom_filter_t :=
  fold_left (fun b' n => bloom_add b' (hash_pipe (node_h n))) l b.

(** The value returned by the read that ends the loading loop. *)
Definition final_ret (tail : list node_read) : Z :=
  match tail with
  | [] => 0
  | rd :: _ => nr_ret rd
  end.

(** The reads left when the loading loop stops: none, or one that did
    not return a whole node. *)
Definition ends_loading (tail : list node_read) : Prop :=
  match tail with
  | [] => True
  | rd :: _ => nr_ret rd <> sizeof_rspamd_fuzzy_node
  end.

(** The bucket a loaded node goes to. *)
Definition in_bucket (i : Z) (n : rspamd_fuzzy_node) : bool :=
  block_size (node_h n) mod BUCKETS =? i.

(** What [read] may return for the request the callback makes: an error,
    or at most the number of bytes asked for, stored in the buffer. *)
Definition read_ok (session : fuzzy_session) (rd : sock_read) : Prop :=
  sr_ret rd = -1 \/
  (0 <= sr_ret rd <= sizeof_fuzzy_cmd - session_pos session /\
   Z.of_nat (List.length (sr_bytes rd)) = sr_ret rd).

(** The sessions the event loop can hold: a fresh one, or one the
    callback has kept after a read. *)
Inductive reachable : fuzzy_session -> Prop :=
| reachable_accept nfd : reachable (accept_session nfd)
| reachable_read session what rd wr now st session' st' acts :
    reachable session ->
    read_ok session rd ->
    fuzzy_io_callback what rd wr now session st = (Some session', st', acts) ->
    reachable session'.

(** The callback entered [process_fuzzy_command]. *)
Definition dispatched (acts : list action) : Prop :=
  exists c, In (Act_process c) acts.

End Vocabulary.

(** ** Concrete runs on the model *)

Module Scenario.
Import Model.

Definition write_a : fuzzy_cmd := mk_cmd 1 128 pipe_a.
Definition write_b : fuzzy_cmd := mk_cmd 1 128 pipe_b.
Definition check_a : fuzzy_cmd := mk_cmd 0 128 pipe_a.
Definition check_b : fuzzy_cmd := mk_cmd 0 128 pipe_b.
Definition check_z : fuzzy_cmd := mk_cmd 0 128 pipe_z.
Definition delete_a : fuzzy_cmd := mk_cmd 2 128 pipe_a.

Definition node_a : rspamd_fuzzy_node :=
  mk_node (mk_fuzzy_hash pipe_a 128) 1000.
Definition node_b : rspamd_fuzzy_node :=
  mk_node (mk_fuzzy_hash pipe_b 128) 1001.

(** The store after WRITE of [pipe_a] at time 1000 on an empty store. *)
Definition st_a : storage (E := externals) :=
  snd (process_write_command (E := externals) 1000 write_a empty).

(** Then WRITE of [pipe_b], one edit away from [pipe_a], at time 1001. *)
Definition st_ab : storage (E := externals) :=
  snd (process_write_command (E := externals) 1001 write_b st_a).

(** [st_ab] once [mods] has reached the limit. *)
Definition st_full : storage (E := externals) :=
  mk_storage (E := externals) (hashes st_ab) (bf st_ab) MOD_LIMIT.

(** A worker with a hash file and the default expiry; every [open]
    succeeds. *)
Definition conf : worker_conf := mk_conf (Some "fuzzy.db"%string) None.
Definition open_always (_ : string) : bool := true.

(** One second after [node_a] has outlived [DEFAULT_EXPIRE]. *)
Definition now_late : Z := 1000 + DEFAULT_EXPIRE + 1.

(** A hash file of two nodes followed by 17 stray bytes. *)
Definition reads : list node_read :=
  [mk_node_read 80 node_a; mk_node_read 80 node_b; mk_node_read 17 node_a].
Definition open_reads (_ : string) : option (list node_read) := Some reads.

(** The frame of WRITE of [pipe_a] with block size 128, and its split
    after 10 bytes. *)
Definition frame_a : list byte :=
  [x01; x00; x00; x00; x80; x00; x00; x00] ++ pipe_a.
Definition frame_a_head : list byte := firstn 10 frame_a.
Definition frame_a_tail : list byte := skipn 10 frame_a.

(** A session that has received the first 10 bytes of a frame. *)
Definition session_10 : fuzzy_session := mk_session 7 frame_a_head 10.

End Scenario.

(** ** The rest of the worker: signals, the event loop, reloading *)

Section Worker.
Context {E : Externals}.

(** Every node sits in the bucket of its block size. *)
Definition partitioned (hs : array (list rspamd_fuzzy_node)) : Prop :=
  forall i n, In n (hs i) -> block_size (node_h n) mod BUCKETS = i.

(** The filter reports the pipe of every node of the index. *)
Definition bloom_sound (st : storage) : Prop :=
  forall i n, In n (hashes st i) ->
    bloom_check (bf st) (hash_pipe (node_h n)) = true.

(** The reads the loading loop consumes, and the reads from the one
    that stops it. *)
Fixpoint complete_reads (reads : list node_read) : list node_read :=
  match reads with
  | [] => []
  | rd :: rest =>
      if nr_ret rd =? sizeof_rspamd_fuzzy_node then rd :: complete_reads rest
      else []
  end.

Fixpoint pending_reads (reads : list node_read) : list node_read :=
  match reads with
  | [] => []
  | rd :: rest =>
      if nr_ret rd =? sizeof_rspamd_fuzzy_node then pending_reads rest
      else reads
  end.

(** What reading back a file of the listed node images gives: one whole
    node per [read], then the end of the file. *)
Definition reads_of_images (l : list rspamd_fuzzy_node) : list node_read :=
  map (mk_node_read sizeof_rspamd_fuzzy_node) l.

(** A [read] on the socket that delivers the listed bytes. *)
Definition chunk_read (bytes : list byte) : sock_read :=
  mk_sock_read (Z.of_nat (List.length bytes)) bytes.

(** The event loop on one session: the persistent EV_READ event calls
    [fuzzy_io_callback] for each read in turn until the session is freed;
    [wr] is what the [write] of the reply returns. *)
Fixpoint session_feed (wr : Z) (now : Z) (rds : list sock_read)
    (session : fuzzy_session) (st : storage)
  : option fuzzy_session * storage * list action :=
  match rds with
  | [] => (Some session, st, [])
  | rd :: rest =>
      match fuzzy_io_callback EV_READ rd wr now session st with
      | (Some session', st', acts) =>
          let '(last, st'', acts') :=
            session_feed wr now rest session' st' in
          (last, st'', acts ++ acts')
      | (None, st', acts) => (None, st', acts)
      end
  end.

(** [accept_fuzzy_socket]: [nfd] is what [accept_from_socket] returned;
    -1 is a failure and 0 means another worker took the connection. *)
Definition accept_fuzzy_socket (nfd : Z) : option fuzzy_session :=
  if nfd =? -1 then None
  else if nfd =? 0 then None
  else Some (accept_session nfd).

End Worker.

Module Scenario_more.
Import Model Scenario.

(** The hash file as the rewrite of [st_full] leaves it: [node_b]. *)
Definition open_saved (_ : string) : option (list node_read) :=
  Some (reads_of_images (E := externals) [node_b]).

(** A node stamped one hour after time 1000. *)
Definition node_ahead : rspamd_fuzzy_node :=
  mk_node (mk_fuzzy_hash pipe_z 128) 4600.

(** A command byte that is none of the three commands. *)
Definition unknown_a : fuzzy_cmd := mk_cmd 9 128 pipe_a.

(** A hash file whose second read fails. *)
Definition reads_error : list node_read :=
  [mk_node_read 80 node_a; mk_node_read (-1) node_a].
Definition open_error (_ : string) : option (list node_read) :=
  Some reads_error.

(** [st_full] with [node_ahead] pushed on bucket 128. *)
Definition st_ahead : storage (E := externals) :=
  mk_storage (E := externals)
    (g_queue_push_head (hashes st_full) 128 node_ahead) (bf st_full)
    MOD_LIMIT.

End Scenario_more.

(** ** A second model of the filter and of the score

    Modelled from the spec: another stand-in for the missing bloom.c and
    fuzzy.c within the contracts of sections 4.1 and 4.2.  Both read a
    pipe as a NUL-terminated string inside its bytes: the filter hashes
    that string, and two hashes score 100 when their block sizes and
    strings agree, 0 otherwise.  Here the filter reports alike two hashes
    that score above [LEV_LIMIT]. *)

Module Model_cstr.

Fixpoint c_string (p : list byte) : list byte :=
  match p with
  | [] => []
  | b :: rest => if Byte.eqb b x00 then [] else b :: c_string rest
  end.

Fixpoint bytes_eqb (p q : list byte) : bool :=
  match p, q with
  | [], [] => true
  | a :: p', b :: q' => Byte.eqb a b && bytes_eqb p' q'
  | _, _ => false
  end.

(** Modelled from the spec: [bloom_check], [bloom_add] and [bloom_del]
    of the missing bloom.c, section 4.1, on the string of the pipe. *)
Definition bloom_check (b : list Z) (p : list byte) : bool :=
  Model.bloom_check b (c_string p).
Definition bloom_add (b : list Z) (p : list byte) : list Z :=
  Model.bloom_add b (c_string p).
Definition bloom_del (b : list Z) (p : list byte) : list Z :=
  Model.bloom_del b (c_string p).

(** Modelled from the spec: [fuzzy_compare_hashes] of the missing
    fuzzy.c, section 4.2: symmetric, total, 100 on equal hashes, 0 when
    the block sizes differ. *)
Definition fuzzy_compare_hashes (h1 h2 : fuzzy_hash_t) : Z :=
  if (block_size h1 =? block_size h2)
     && bytes_eqb (c_string (hash_pipe h1)) (c_string (hash_pipe h2))
  then 100 else 0.

Definition externals : Externals :=
  Build_Externals (list Z) bloom_check bloom_add bloom_del
    fuzzy_compare_hashes Model.parse_seconds
    Model.sizeof_rspamd_fuzzy_node Model.sizeof_fuzzy_cmd
    0 1 2                         (* FUZZY_CHECK, FUZZY_WRITE, FUZZY_DEL *)
    Model.fuzzy_cmd_of_bytes.

Definition empty : storage (E := externals) :=
  mk_storage (E := externals) (fun _ => []) ([] : list Z) 0.



End Model_cstr.

(** * Properties *)

Section Commands.
Context {E : Externals}.

Lemma array_set_same {A} (a : array A) i v : array_set a i v i = v.
Proof. unfold array_set. now rewrite Z.eqb_refl. Qed.

Lemma array_set_other {A} (a : array A) i j v :
  j <> i -> array_set a i v j = a j.
Proof.
  intros Hne. unfold array_set.
  destruct (Z.eqb_spec j i); [contradiction | reflexivity].
Qed.

Lemma wrap32_succ_l m k : wrap32 (wrap32 (m + 1) + k) = wrap32 (m + 1 + k).
Proof. unfold wrap32. now rewrite Zplus_mod_idemp_l. Qed.

Lemma bucket_in_range b : 0 <= b mod BUCKETS < BUCKETS.
Proof. apply Z.mod_pos_bound. reflexivity. Qed.

(** The scan of CHECK answers whether the queue holds a match. *)
Lemma check_scan_existsb c cur :
  check_scan (query_of c) cur = existsb (matches c) cur.
Proof.
  induction cur as [|n next IH]; simpl; [reflexivity|].
  unfold matches at 1.
  destruct (fuzzy_compare_hashes (node_h n) (query_of c) >? LEV_LIMIT);
    [reflexivity | exact IH].
Qed.

Lemma matches_gt c n :
  matches c n = true <->
  fuzzy_compare_hashes (node_h n) (query_of c) > LEV_LIMIT.
Proof.
  unfold matches. rewrite Z.gtb_ltb, Z.ltb_lt. lia.
Qed.

(** The scan of DELETE: what is kept, how often the filter and [mods]
    are updated, and the answer. *)
Lemma delete_scan_spec c cur : forall b m res,
  let r := delete_scan c (query_of c) cur b m res in
  let k := List.length (filter (matches c) cur) in
  del_queue r = filter (fun n => negb (matches c n)) cur /\
  del_bf r = bloom_del_times k (cmd_hash c) b /\
  del_mods r = match k with
               | O => m
               | S _ => wrap32 (m + Z.of_nat k)
               end /\
  del_res r = (res || negb (Nat.eqb k 0))%bool.
Proof.
  induction cur as [|n next IH]; intros b m res.
  - cbn. repeat split. now rewrite orb_false_r.
  - cbn [delete_scan filter].
    change (fuzzy_compare_hashes (node_h n) (query_of c) >? LEV_LIMIT)
      with (matches c n).
    destruct (matches c n) eqn:Hm; cbn [negb List.length].
    + destruct (IH (bloom_del b (cmd_hash c)) (wrap32 (m + 1)) true)
        as (Hq & Hb & Hmods & Hres).
      repeat split.
      * exact Hq.
      * rewrite Hb. unfold bloom_del_times.
        symmetry.
        exact (Nat.iter_succ_r _ _ (fun b' => bloom_del b' (cmd_hash c)) b).
      * rewrite Hmods.
        destruct (List.length (filter (matches c) next)) as [|k'] eqn:Hk.
        -- reflexivity.
        -- rewrite wrap32_succ_l. f_equal. lia.
      * rewrite Hres. now rewrite orb_true_r.
    + destruct (IH b m res) as (Hq & Hb & Hmods & Hres).
      cbn [del_queue del_bf del_mods del_res].
      repeat split; [now rewrite Hq | exact Hb | exact Hmods | exact Hres].
Qed.

(** C3: WRITE answers false and changes nothing when the filter reports
    the pipe; otherwise it puts the node (hash, now) at the head of bucket
    [blocksize mod 1024], leaves the other buckets alone, adds the pipe to
    the filter, increments [mods] by one (as a [uint32_t]) and answers
    true. *)
Theorem write_command_spec (now : Z) (c : fuzzy_cmd) (st : storage) :
  let res := fst (process_write_command now c st) in
  let st' := snd (process_write_command now c st) in
  let i := cmd_blocksize c mod BUCKETS in
  (bloom_check (bf st) (cmd_hash c) = true -> res = false /\ st' = st) /\
  (bloom_check (bf st) (cmd_hash c) = false ->
     res = true /\
     0 <= i < BUCKETS /\
     hashes st' i = mk_node (query_of c) (wrap64 now) :: hashes st i /\
     (forall j, j <> i -> hashes st' j = hashes st j) /\
     bf st' = bloom_add (bf st) (cmd_hash c) /\
     mods st' = wrap32 (mods st + 1) /\
     (0 <= mods st < 2 ^ 32 - 1 -> mods st' = mods st + 1)).
Proof.
  unfold process_write_command.
  destruct (bloom_check (bf st) (cmd_hash c)); simpl; split;
    try discriminate; intros _.
  - split; reflexivity.
  - split; [reflexivity|]. split; [apply bucket_in_range|].
    unfold g_queue_push_head. split; [apply array_set_same|].
    split; [intros j Hj; now apply array_set_other|].
    split; [reflexivity|]. split; [reflexivity|].
    intros Hm. unfold wrap32. apply Z.mod_small. lia.
Qed.

(** C4: CHECK answers false when the filter does not report the pipe;
    otherwise it answers true exactly when the queue of bucket
    [blocksize mod 1024] holds a node scoring above 99 against the query;
    in every case the index, the filter and [mods] are as before. *)
Theorem check_command_spec (c : fuzzy_cmd) (st : storage) :
  let res := fst (process_check_command c st) in
  let st' := snd (process_check_command c st) in
  let i := cmd_blocksize c mod BUCKETS in
  st' = st /\
  (bloom_check (bf st) (cmd_hash c) = false -> res = false) /\
  (bloom_check (bf st) (cmd_hash c) = true ->
     res = existsb (matches c) (hashes st i) /\
     (res = true <->
      exists n, In n (hashes st i) /\
        fuzzy_compare_hashes (node_h n) (query_of c) > LEV_LIMIT)).
Proof.
  unfold process_check_command.
  destruct (bloom_check (bf st) (cmd_hash c)); simpl.
  - split; [reflexivity|]. split; [discriminate|]. intros _.
    rewrite check_scan_existsb. split; [reflexivity|].
    rewrite existsb_exists. split.
    + intros (n & Hin & Hm). exists n. split; [exact Hin|].
      now apply matches_gt.
    + intros (n & Hin & Hm). exists n. split; [exact Hin|].
      now apply matches_gt.
  - split; [reflexivity|]. split; [reflexivity | discriminate].
Qed.

(** DELETE when the filter reports the pipe. *)
Lemma process_delete_present (c : fuzzy_cmd) (st : storage) :
  bloom_check (bf st) (cmd_hash c) = true ->
  let res := fst (process_delete_command c st) in
  let st' := snd (process_delete_command c st) in
  let i := cmd_blocksize c mod BUCKETS in
  let k := List.length (removed c st) in
  hashes st' i = filter (fun n => negb (matches c n)) (hashes st i) /\
  (forall j, j <> i -> hashes st' j = hashes st j) /\
  bf st' = bloom_del_times k (cmd_hash c) (bf st) /\
  mods st' = match k with
             | O => mods st
             | S _ => wrap32 (mods st + Z.of_nat k)
             end /\
  res = negb (Nat.eqb k 0).
Proof.
  intros Hb. unfold process_delete_command, removed. rewrite Hb. simpl.
  destruct (delete_scan_spec c (hashes st (cmd_blocksize c mod BUCKETS))
              (bf st) (mods st) false) as (Hq & Hbf & Hm & Hr).
  split; [rewrite array_set_same; exact Hq|].
  split; [intros j Hj; now apply array_set_other|].
  split; [exact Hbf|]. split; [exact Hm | exact Hr].
Qed.

(** C2, amended: DELETE answers false and changes nothing when the
    filter does not report the pipe; otherwise it unlinks from bucket
    [blocksize mod 1024] every node scoring above 99 against the query,
    applies [bloom_del] once per unlinked node, increments [mods] once
    per unlinked node (as a [uint32_t]) and answers true exactly when a
    node was unlinked. *)
Theorem delete_command_spec (c : fuzzy_cmd) (st : storage) :
  let res := fst (process_delete_command c st) in
  let st' := snd (process_delete_command c st) in
  let i := cmd_blocksize c mod BUCKETS in
  let k := List.length (removed c st) in
  (bloom_check (bf st) (cmd_hash c) = false -> res = false /\ st' = st) /\
  (bloom_check (bf st) (cmd_hash c) = true ->
     hashes st' i = filter (fun n => negb (matches c n)) (hashes st i) /\
     (forall j, j <> i -> hashes st' j = hashes st j) /\
     bf st' = bloom_del_times k (cmd_hash c) (bf st) /\
     mods st' = match k with
                | O => mods st
                | S _ => wrap32 (mods st + Z.of_nat k)
                end /\
     res = negb (Nat.eqb k 0)).
Proof.
  split.
  - intros Hb. unfold process_delete_command. rewrite Hb. simpl.
    split; reflexivity.
  - intros Hb. exact (process_delete_present c st Hb).
Qed.

(** [bloom_del] of a pipe that leaves the answer for [p] alone does so
    however often it is applied. *)
Lemma bloom_del_times_check k q p b :
  (forall b', bloom_check (bloom_del b' q) p = bloom_check b' p) ->
  bloom_check (bloom_del_times k q b) p = bloom_check b p.
Proof.
  intros Hq. unfold bloom_del_times.
  induction k as [|k IH]; [reflexivity|].
  rewrite Nat.iter_succ, Hq. exact IH.
Qed.

(** C10: the filter after DELETE is the filter before with [bloom_del]
    of the command's pipe applied once per unlinked node, and nothing
    else: an unlinked node leaves the index while its own pipe is never
    handed to [bloom_del], so the filter answers for it as before
    whenever deleting the command's pipe does not disturb that answer. *)
Theorem delete_filter_uses_query_pipe (c : fuzzy_cmd) (st : storage) :
  bloom_check (bf st) (cmd_hash c) = true ->
  let st' := snd (process_delete_command c st) in
  bf st' = bloom_del_times (List.length (removed c st)) (cmd_hash c) (bf st) /\
  forall n, In n (removed c st) ->
    ~ In n (hashes st' (cmd_blocksize c mod BUCKETS)) /\
    ((forall b, bloom_check (bloom_del b (cmd_hash c)) (hash_pipe (node_h n))
                = bloom_check b (hash_pipe (node_h n))) ->
     bloom_check (bf st') (hash_pipe (node_h n))
     = bloom_check (bf st) (hash_pipe (node_h n))).
Proof.
  intros Hb.
  destruct (process_delete_present c st Hb) as (Hq & _ & Hbf & _).
  cbv zeta. split; [exact Hbf|].
  intros n Hn. split.
  - rewrite Hq. rewrite filter_In. intros [_ Hneg].
    unfold removed in Hn. apply filter_In in Hn. destruct Hn as [_ Hm].
    rewrite Hm in Hneg. discriminate.
  - intros Hfree. rewrite Hbf. now apply bloom_del_times_check.
Qed.



End Commands.

Section Snapshot.
Context {E : Externals}.

Lemma expired_pipes_app now expire l1 l2 :
  expired_pipes now expire (l1 ++ l2) =
  expired_pipes now expire l1 ++ expired_pipes now expire l2.
Proof. unfold expired_pipes. now rewrite filter_app, map_app. Qed.

Lemma fresh_expired now expire n :
  fresh now expire n = negb (expired now expire n).
Proof. reflexivity. Qed.

(** With time stamps that are not in the future the 64-bit difference
    is the difference of the two times. *)
Lemma expired_no_wrap now expire n :
  0 <= node_time n <= now -> now < 2 ^ 64 ->
  expired now expire n = (now - node_time n >? expire).
Proof.
  intros Ht Hn. unfold expired, wrap64.
  rewrite Z.mod_small by lia. reflexivity.
Qed.

(** The walk over one queue keeps the fresh nodes, deletes the pipe of
    every expired node from the filter and writes the fresh ones. *)
Lemma sync_queue_walk_spec now expire cur : forall b out,
  let r := sync_queue_walk now expire cur b out in
  sync_queue r = filter (fresh now expire) cur /\
  sync_bf r = fold_left bloom_del (expired_pipes now expire cur) b /\
  sync_out r = out ++ filter (fresh now expire) cur.
Proof.
  induction cur as [|n next IH]; intros b out.
  - cbn. repeat split. now rewrite app_nil_r.
  - cbn [sync_queue_walk filter]. unfold expired_pipes.
    cbn [filter]. rewrite fresh_expired.
    destruct (expired now expire n) eqn:He; cbn [negb map fold_left].
    + exact (IH (bloom_del b (hash_pipe (node_h n))) out).
    + destruct (IH b (out ++ [n])) as (Hq & Hb & Ho).
      cbn [sync_queue sync_bf sync_out].
      split; [now rewrite Hq|]. split; [exact Hb|].
      rewrite Ho, <- app_assoc. reflexivity.
Qed.

Lemma bucket_range_In k : forall i j,
  In j (bucket_range k i) <-> i <= j < i + Z.of_nat k.
Proof.
  induction k as [|k IH]; intros i j; cbn [bucket_range In].
  - split; [tauto | lia].
  - rewrite IH. lia.
Qed.

Lemma walk_order_array_set hs i v idx :
  ~ In i idx -> walk_order (array_set hs i v) idx = walk_order hs idx.
Proof.
  unfold walk_order. induction idx as [|j idx IH]; intros Hni;
    cbn [flat_map]; [reflexivity|].
  rewrite array_set_other by (intros ->; apply Hni; now left).
  rewrite IH; [reflexivity|]. intros Hin. apply Hni. now right.
Qed.

(** [k] turns of the outer loop starting at bucket [i]. *)
Lemma sync_buckets_spec now expire k : forall i hs b out,
  let r := sync_buckets now expire k i hs b out in
  let walked := walk_order hs (bucket_range k i) in
  (forall j, In j (bucket_range k i) ->
     fst (fst r) j = filter (fresh now expire) (hs j)) /\
  (forall j, ~ In j (bucket_range k i) -> fst (fst r) j = hs j) /\
  snd (fst r) = fold_left bloom_del (expired_pipes now expire walked) b /\
  snd r = out ++ filter (fresh now expire) walked.
Proof.
  induction k as [|k IH]; intros i hs b out.
  - cbn. repeat split; try tauto. now rewrite app_nil_r.
  - cbn [sync_buckets bucket_range].
    destruct (sync_queue_walk_spec now expire (hs i) b out) as (Hq & Hb & Ho).
    set (r1 := sync_queue_walk now expire (hs i) b out) in *.
    destruct (IH (i + 1) (array_set hs i (sync_queue r1)) (sync_bf r1)
                (sync_out r1)) as (Hin & Hout & Hbf & Hw).
    assert (Hni : ~ In i (bucket_range k (i + 1)))
      by (rewrite bucket_range_In; lia).
    rewrite walk_order_array_set in Hbf, Hw by exact Hni.
    cbv zeta. unfold walk_order at 1 2. cbn [flat_map].
    fold (walk_order hs (bucket_range k (i + 1))).
    split; [|split; [|split]].
    + intros j [<-|Hj].
      * rewrite Hout by exact Hni. rewrite array_set_same. exact Hq.
      * rewrite Hin by exact Hj. rewrite array_set_other; [reflexivity|].
        intros ->. contradiction.
    + intros j Hj. cbn [In] in Hj.
      rewrite Hout by tauto. apply array_set_other.
      intros ->. apply Hj. now left.
    + rewrite Hbf, Hb, expired_pipes_app, fold_left_app. reflexivity.
    + rewrite Hw, Ho, filter_app, app_assoc. reflexivity.
Qed.

Lemma all_buckets_In j : In j all_buckets <-> 0 <= j < BUCKETS.
Proof.
  unfold all_buckets. rewrite bucket_range_In.
  rewrite Z2Nat.id by (unfold BUCKETS; lia). lia.
Qed.

Lemma walk_order_In hs idx n :
  In n (walk_order hs idx) <-> exists j, In j idx /\ In n (hs j).
Proof. unfold walk_order. apply in_flat_map. Qed.

(** What a rewrite does, as a whole. *)
Lemma sync_cache_rewrite wrk open_ok now st st' filename out :
  sync_cache wrk open_ok now st = (st', Some (filename, out)) ->
  let t := wrap64 now in
  let ttl := expire_of wrk in
  let walked := walk_order (hashes st) all_buckets in
  MOD_LIMIT <= mods st /\
  param_hashfile wrk = Some filename /\
  open_ok filename = true /\
  (forall j, 0 <= j < BUCKETS ->
     hashes st' j = filter (fresh t ttl) (hashes st j)) /\
  bf st' = fold_left bloom_del (expired_pipes t ttl walked) (bf st) /\
  mods st' = mods st /\
  out = filter (fresh t ttl) walked.
Proof.
  unfold sync_cache.
  destruct (Z.ltb_spec (mods st) MOD_LIMIT) as [Hlt|Hge]; [discriminate|].
  destruct (param_hashfile wrk) as [f|]; [|discriminate].
  destruct (open_ok f) eqn:Hopen; cbn [negb]; [|discriminate].
  pose proof (sync_buckets_spec (wrap64 now) (expire_of wrk)
                (Z.to_nat BUCKETS) 0 (hashes st) (bf st) []) as Hspec.
  cbv zeta in Hspec. fold all_buckets in Hspec.
  destruct Hspec as (Hin & _ & Hbf & Hout).
  destruct (sync_buckets (wrap64 now) (expire_of wrk) (Z.to_nat BUCKETS) 0
              (hashes st) (bf st) []) as [[hs b] o].
  cbn [fst snd] in Hin, Hbf, Hout. intros Heq.
  injection Heq as Hst Hf Ho. rewrite <- Hst, <- Hf, <- Ho.
  cbn [hashes bf mods]. cbv zeta.
  split; [exact Hge|]. split; [reflexivity|]. split; [exact Hopen|].
  split; [|split; [exact Hbf|split; [reflexivity | exact Hout]]].
  intros j Hj. apply Hin. now apply all_buckets_In.
Qed.

(** [sync_cache] never assigns [mods]. *)
Lemma sync_cache_mods wrk open_ok now st :
  mods (fst (sync_cache wrk open_ok now st)) = mods st.
Proof.
  unfold sync_cache.
  destruct (mods st <? MOD_LIMIT); [reflexivity|].
  destruct (param_hashfile wrk) as [f|]; [|reflexivity].
  destruct (open_ok f); cbn [negb]; [|reflexivity].
  destruct (sync_buckets (wrap64 now) (expire_of wrk) (Z.to_nat BUCKETS) 0
              (hashes st) (bf st) []) as [[hs b] o].
  reflexivity.
Qed.

(** C1, amended: a rewrite by [sync_cache] leaves [mods] as it was on
    entry, so at least [MOD_LIMIT]; it is not reset. *)
Theorem sync_cache_keeps_mods wrk open_ok now st st' filename out :
  sync_cache wrk open_ok now st = (st', Some (filename, out)) ->
  mods st' = mods st /\ MOD_LIMIT <= mods st' /\ mods st' <> 0.
Proof.
  intros Heq.
  destruct (sync_cache_rewrite _ _ _ _ _ _ _ Heq)
    as (Hge & _ & _ & _ & _ & Hm & _).
  rewrite Hm. split; [reflexivity|]. split; [exact Hge|].
  unfold MOD_LIMIT in Hge. lia.
Qed.

(** C6: at a rewrite, a node whose age [now - time] (the 64-bit
    difference the code computes) exceeds the expiry is gone from its
    bucket, its pipe is among those handed to [bloom_del], and its image
    is not written; every other node stays in its bucket and its image is
    written.  The images written are the surviving nodes in bucket
    order, and for a time stamp not after [now] the age is the plain
    difference. *)
Theorem sync_cache_expiry wrk open_ok now st st' filename out :
  sync_cache wrk open_ok now st = (st', Some (filename, out)) ->
  let t := wrap64 now in
  let ttl := expire_of wrk in
  let dels := expired_pipes t ttl (walk_order (hashes st) all_buckets) in
  bf st' = fold_left bloom_del dels (bf st) /\
  out = filter (fresh t ttl) (walk_order (hashes st) all_buckets) /\
  (forall i r, 0 <= i < BUCKETS -> In r (hashes st i) ->
     (expired t ttl r = true ->
        ~ In r (hashes st' i) /\
        In (hash_pipe (node_h r)) dels /\
        ~ In r out) /\
     (expired t ttl r = false -> In r (hashes st' i) /\ In r out)) /\
  (forall r, 0 <= node_time r <= t ->
     expired t ttl r = (t - node_time r >? ttl)).
Proof.
  intros Heq.
  destruct (sync_cache_rewrite _ _ _ _ _ _ _ Heq)
    as (_ & _ & _ & Hhs & Hbf & _ & Hout).
  cbv zeta. split; [exact Hbf|]. split; [exact Hout|].
  split; [|intros r Hr; apply expired_no_wrap; [exact Hr|];
           apply Z.mod_pos_bound; reflexivity].
  intros i r Hi Hr.
  assert (Hwalk : In r (walk_order (hashes st) all_buckets)).
  { apply walk_order_In. exists i.
    split; [now apply all_buckets_In | exact Hr]. }
  split; intros He.
  - split; [|split].
    + rewrite Hhs by exact Hi. rewrite filter_In, fresh_expired, He.
      intros [_ Hf]. discriminate.
    + unfold expired_pipes. apply in_map_iff. exists r.
      split; [reflexivity|]. apply filter_In. now split.
    + rewrite Hout, filter_In, fresh_expired, He. intros [_ Hf]. discriminate.
  - split.
    + rewrite Hhs by exact Hi. apply filter_In.
      split; [exact Hr|]. now rewrite fresh_expired, He.
    + rewrite Hout. apply filter_In.
      split; [exact Hwalk|]. now rewrite fresh_expired, He.
Qed.

End Snapshot.

Section Loading.
Context {E : Externals}.

(** The loop consumes every complete read and stops at the first read
    that is not complete. *)
Lemma read_loop_spec full : forall tail hs b,
  Forall (fun rd => nr_ret rd = sizeof_rspamd_fuzzy_node) full ->
  ends_loading tail ->
  read_loop (full ++ tail) hs b =
  (final_ret tail, load_nodes (map nr_node full) hs,
   load_pipes (map nr_node full) b).
Proof.
  induction full as [|rd full IH]; intros tail hs b Hfull Htail.
  - cbn [app map]. destruct tail as [|rd tail]; [reflexivity|].
    cbn [read_loop final_ret]. cbn in Htail.
    destruct (Z.eqb_spec (nr_ret rd) sizeof_rspamd_fuzzy_node);
      [contradiction | reflexivity].
  - inversion Hfull as [|? ? Hrd Hrest]; subst.
    cbn [app read_loop map]. rewrite Hrd, Z.eqb_refl. cbn [negb].
    rewrite IH by assumption. reflexivity.
Qed.

(** Loading pushes at the head: a bucket holds its nodes last read
    first, in front of what it held. *)
Lemma load_nodes_bucket l : forall hs i,
  load_nodes l hs i = rev (filter (in_bucket i) l) ++ hs i.
Proof.
  unfold load_nodes.
  induction l as [|n l IH]; intros hs i; cbn [fold_left filter];
    [reflexivity|].
  rewrite IH. unfold g_queue_push_head, in_bucket at 2.
  destruct (Z.eqb_spec (block_size (node_h n) mod BUCKETS) i) as [->|Hne].
  - rewrite array_set_same. cbn [rev]. now rewrite <- app_assoc.
  - rewrite array_set_other by congruence. reflexivity.
Qed.

(** C7: every read of a whole node puts that node at the head of
    bucket [block_size mod 1024] and adds its pipe to the filter; the read
    that ends the loop inserts nothing; after a final short read of
    nonzero length loading succeeds, after a read error it fails, and in
    both cases the nodes read before are in the index. *)
Theorem read_hashes_file_spec wrk open_rd st filename full tail :
  param_hashfile wrk = Some filename ->
  open_rd filename = Some (full ++ tail) ->
  Forall (fun rd => nr_ret rd = sizeof_rspamd_fuzzy_node) full ->
  ends_loading tail ->
  let res := fst (read_hashes_file wrk open_rd st) in
  let st' := snd (read_hashes_file wrk open_rd st) in
  let nodes := map nr_node full in
  hashes st' = load_nodes nodes (fun _ => []) /\
  (forall i, hashes st' i = rev (filter (in_bucket i) nodes)) /\
  bf st' = load_pipes nodes (bf st) /\
  mods st' = mods st /\
  (0 < final_ret tail -> res = true) /\
  (final_ret tail = -1 -> res = false) /\
  (forall n, In n nodes ->
     In n (hashes st' (block_size (node_h n) mod BUCKETS))).
Proof.
  intros Hfile Hopen Hfull Htail.
  unfold read_hashes_file. rewrite Hfile, Hopen. cbn [hashes bf mods].
  rewrite read_loop_spec by assumption.
  set (r := final_ret tail).
  assert (Hst : forall (x : bool) (y : storage),
            snd (if r >? 0 then (true, y)
                 else if r =? -1 then (false, y) else (x, y)) = y).
  { intros x y. destruct (r >? 0); [reflexivity|].
    destruct (r =? -1); reflexivity. }
  cbv zeta. rewrite Hst. cbn [hashes bf mods].
  assert (Hbucket : forall i,
            load_nodes (map nr_node full) (fun _ => []) i =
            rev (filter (in_bucket i) (map nr_node full))).
  { intros i. rewrite load_nodes_bucket. apply app_nil_r. }
  split; [reflexivity|]. split; [exact Hbucket|].
  split; [reflexivity|]. split; [reflexivity|].
  split; [|split].
  - intros Hr. destruct (Z.gtb_spec r 0); [reflexivity | lia].
  - intros Hr. rewrite Hr. reflexivity.
  - intros n Hn. rewrite Hbucket. apply in_rev. rewrite rev_involutive.
    apply filter_In. split; [exact Hn|]. unfold in_bucket. apply Z.eqb_refl.
Qed.

End Loading.

Section Sessions.
Context {E : Externals}.

(** [process_fuzzy_command] enters once and writes one reply line,
    logging the failure of that write. *)
Lemma process_fuzzy_command_acts wr now fd c st :
  exists line,
    snd (process_fuzzy_command wr now fd c st) =
      Act_process c :: write_reply fd wr line /\
    (line = reply_ok \/ line = reply_err).
Proof.
  unfold process_fuzzy_command, CMD_PROCESS.
  destruct (cmd_cmd c =? FUZZY_CHECK).
  { destruct (fst (process_check_command c st));
      [exists reply_ok | exists reply_err]; cbn [snd]; tauto. }
  destruct (cmd_cmd c =? FUZZY_WRITE).
  { destruct (fst (process_write_command now c st));
      [exists reply_ok | exists reply_err]; cbn [snd]; tauto. }
  destruct (cmd_cmd c =? FUZZY_DEL).
  { destruct (fst (process_delete_command c st));
      [exists reply_ok | exists reply_err]; cbn [snd]; tauto. }
  exists reply_err. cbn [snd]. tauto.
Qed.

(** Writing a reply is not entering [process_fuzzy_command]. *)
Lemma write_reply_no_process fd wr line c :
  ~ In (Act_process c) (write_reply fd wr line).
Proof.
  unfold write_reply. destruct (wr =? -1); cbn [In];
    intros Hin; repeat (destruct Hin as [Hin|Hin]; [discriminate|]);
    exact Hin.
Qed.

(** The three ways out of the callback. *)
Lemma fuzzy_io_callback_cases what rd wr now session st :
  let frame := session_cmd session ++ sr_bytes rd in
  let r := sr_ret rd in
  let res := fuzzy_io_callback what rd wr now session st in
  (what = EV_READ /\ r <> -1 /\ session_pos session + r <> sizeof_fuzzy_cmd /\
   res = (Some (mk_session (session_fd session) frame
                  (session_pos session + r)),
          st, []))
  \/
  (what = EV_READ /\ r <> -1 /\ session_pos session + r = sizeof_fuzzy_cmd /\
   exists line,
     res = (None,
            fst (process_fuzzy_command wr now (session_fd session)
                   (fuzzy_cmd_of_bytes frame) st),
            (Act_process (fuzzy_cmd_of_bytes frame)
             :: write_reply (session_fd session) wr line)
            ++ free_session session))
  \/
  ((what <> EV_READ \/ r = -1) /\
   exists pre, (pre = [] \/ pre = [Act_log_err]) /\
     res = (None, st, pre ++ free_session session)).
Proof.
  cbv zeta. unfold fuzzy_io_callback.
  destruct (Z.eqb_spec what EV_READ) as [Hw|Hw].
  - destruct (Z.eqb_spec (sr_ret rd) (-1)) as [Hr|Hr].
    + right. right. split; [now right|].
      exists [Act_log_err]. split; [now right | reflexivity].
    + destruct (Z.eqb_spec (session_pos session + sr_ret rd) sizeof_fuzzy_cmd)
        as [Hc|Hc].
      * right. left. repeat split; try assumption.
        set (c := fuzzy_cmd_of_bytes (session_cmd session ++ sr_bytes rd)).
        destruct (process_fuzzy_command_acts wr now (session_fd session) c st)
          as (line & Hacts & _).
        exists line.
        destruct (process_fuzzy_command wr now (session_fd session) c st)
          as [st1 acts1].
        cbn [fst snd] in *. now rewrite Hacts.
      * left. repeat split; assumption.
  - right. right. split; [now left|].
    exists []. split; [now left | reflexivity].
Qed.

(** In a session the event loop holds, [pos] counts the bytes received. *)
Lemma reachable_pos session :
  reachable session ->
  session_pos session = Z.of_nat (List.length (session_cmd session)).
Proof.
  induction 1
    as [nfd | session what rd wr now st session' st' acts Hreach IH Hrd Hcb].
  - reflexivity.
  - destruct (fuzzy_io_callback_cases what rd wr now session st)
      as [(_ & Hne & _ & Heq) |
          [(_ & _ & _ & line & Heq) | (_ & pre & _ & Heq)]];
      rewrite Heq in Hcb; try discriminate.
    injection Hcb as <- _ _. cbn [session_pos session_cmd].
    destruct Hrd as [Herr | [_ Hlen]]; [contradiction|].
    rewrite length_app, Nat2Z.inj_add, <- IH, Hlen. reflexivity.
Qed.

Lemma not_dispatched_free pre session :
  pre = [] \/ pre = [Act_log_err] ->
  ~ dispatched (pre ++ free_session session).
Proof.
  intros Hpre (c & Hin). unfold free_session in Hin.
  destruct Hpre as [-> | ->]; cbn in Hin;
    repeat (destruct Hin as [Hin|Hin]; [discriminate|]); exact Hin.
Qed.

(** C9: whatever a session held by the event loop receives, the
    callback enters [process_fuzzy_command] only with a frame of exactly
    [sizeof (struct fuzzy_cmd)] bytes, built from the bytes received; each
    call either keeps the session with the bytes appended to a frame that
    is still short, or dispatches the complete frame and frees the
    session, or frees the session without dispatching. *)
Theorem io_callback_frame_complete
    session what rd wr now st session' st' acts :
  reachable session ->
  read_ok session rd ->
  fuzzy_io_callback what rd wr now session st = (session', st', acts) ->
  let frame := session_cmd session ++ sr_bytes rd in
  let len := Z.of_nat (List.length frame) in
  (forall c, In (Act_process c) acts ->
     len = sizeof_fuzzy_cmd /\ c = fuzzy_cmd_of_bytes frame) /\
  ((exists s, session' = Some s /\ reachable s /\ session_cmd s = frame /\
              len < sizeof_fuzzy_cmd /\ st' = st /\ acts = [])
   \/ (session' = None /\ dispatched acts /\ len = sizeof_fuzzy_cmd /\
       In (Act_close (session_fd session)) acts)
   \/ (session' = None /\ ~ dispatched acts /\ st' = st /\
       In (Act_close (session_fd session)) acts)).
Proof.
  intros Hreach Hrd Hcb. cbv zeta.
  pose proof (reachable_pos session Hreach) as Hpos.
  assert (Hlen : sr_ret rd <> -1 ->
            Z.of_nat (List.length (session_cmd session ++ sr_bytes rd)) =
            session_pos session + sr_ret rd /\
            session_pos session + sr_ret rd <= sizeof_fuzzy_cmd).
  { intros Hne. destruct Hrd as [Herr | [Hrange Hl]]; [contradiction|].
    rewrite length_app, Nat2Z.inj_add, <- Hpos, Hl. lia. }
  destruct (fuzzy_io_callback_cases what rd wr now session st)
    as [(Hw & Hne & Hshort & Heq) |
        [(Hw & Hne & Hfull & line & Heq) | (Hwhy & pre & Hpre & Heq)]];
    rewrite Heq in Hcb; injection Hcb as <- <- <-.
  - destruct (Hlen Hne) as [Hl Hle]. split.
    + intros c [].
    + left. eexists. split; [reflexivity|].
      split; [|split; [reflexivity|]].
      * eapply reachable_read; [exact Hreach | exact Hrd | exact Heq].
      * split; [lia|]. split; reflexivity.
  - destruct (Hlen Hne) as [Hl Hle]. split.
    + intros c Hin. split; [lia|].
      cbn [app] in Hin. destruct Hin as [Hin|Hin]; [now inversion Hin|].
      apply in_app_or in Hin. destruct Hin as [Hin|Hin].
      * now apply write_reply_no_process in Hin.
      * unfold free_session in Hin. cbn [In] in Hin.
        repeat (destruct Hin as [Hin|Hin]; [discriminate|]). contradiction.
    + right. left. split; [reflexivity|].
      split; [eexists; now left|]. split; [lia|].
      right. apply in_or_app. right. unfold free_session. cbn. tauto.
  - split.
    + intros c Hin. exfalso.
      apply (not_dispatched_free pre session Hpre). now exists c.
    + right. right. split; [reflexivity|].
      split; [now apply not_dispatched_free|]. split; [reflexivity|].
      apply in_or_app. right. unfold free_session. cbn. tauto.
Qed.

(** C8: a read error frees the session without dispatching, but end
    of file on a frame that is not complete ([read] returns 0) does not:
    the callback keeps the session as it is, with its event and its socket,
    and does nothing else. *)
Theorem io_callback_eof_keeps_session session bytes wr now st :
  session_pos session <> sizeof_fuzzy_cmd ->
  fuzzy_io_callback EV_READ (mk_sock_read (-1) bytes) wr now session st
    = (None, st, Act_log_err :: free_session session) /\
  fuzzy_io_callback EV_READ (mk_sock_read 0 []) wr now session st
    = (Some (mk_session (session_fd session) (session_cmd session)
               (session_pos session)), st, []).
Proof.
  intros Hshort. unfold fuzzy_io_callback. cbn [sr_ret sr_bytes].
  rewrite Z.eqb_refl. split.
  - reflexivity.
  - rewrite Z.add_0_r, app_nil_r.
    destruct (Z.eqb_spec 0 (-1)) as [Habs|_]; [discriminate|].
    destruct (Z.eqb_spec (session_pos session) sizeof_fuzzy_cmd)
      as [Heq|_]; [contradiction | reflexivity].
Qed.

End Sessions.

(** * The properties on concrete runs *)

Import Scenario.

(** In the model, clearing the bits of [q] leaves the bits of any pipe
    that shares none with [q]. *)
Lemma model_bit_set_filter (f : Z -> bool) (b : list Z) (i : Z) :
  f i = true -> Model.bit_set (filter f b) i = Model.bit_set b i.
Proof.
  intros Hf. unfold Model.bit_set.
  induction b as [|x b IH]; cbn [filter existsb]; [reflexivity|].
  destruct (f x) eqn:Hx; cbn [existsb].
  - now rewrite IH.
  - rewrite IH.
    destruct (Z.eqb_spec i x) as [->|Hne]; [congruence | reflexivity].
Qed.

Lemma model_bloom_del_disjoint (q p : list byte) (b : list Z) :
  forallb (fun i => negb (Model.bit_set (Model.bloom_bits q) i))
          (Model.bloom_bits p) = true ->
  Model.bloom_check (Model.bloom_del b q) p = Model.bloom_check b p.
Proof.
  unfold Model.bloom_check, Model.bloom_del.
  induction (Model.bloom_bits p) as [|i l IH]; cbn [forallb]; [reflexivity|].
  intros Hd. apply andb_prop in Hd. destruct Hd as [Hi Hl].
  rewrite (model_bit_set_filter _ b i Hi). now rewrite IH.
Qed.

(** The runs the statements below look at. *)
Local Abbreviation late_sync :=
  (sync_cache (E := Model.externals) conf open_always now_late st_full).
Local Abbreviation delete_both :=
  (process_delete_command (E := Model.externals) delete_a st_ab).
Local Abbreviation read_tail :=
  (fuzzy_io_callback (E := Model.externals) EV_READ
     (mk_sock_read 62 frame_a_tail) 4 1000 session_10 Model.empty).
Local Abbreviation loaded :=
  (read_hashes_file (E := Model.externals) conf open_reads Model.empty).

(** The rewrite of [st_full] at [now_late] writes [node_b] alone. *)
Lemma late_sync_written :
  snd late_sync = Some ("fuzzy.db"%string, [node_b]).
Proof. vm_compute. reflexivity. Qed.

Lemma late_sync_eq :
  sync_cache (E := Model.externals) conf open_always now_late st_full
  = (fst late_sync, Some ("fuzzy.db"%string, [node_b])).
Proof. rewrite <- late_sync_written. apply surjective_pairing. Qed.

Lemma triple_eta {A B C} (p : A * B * C) :
  p = (fst (fst p), snd (fst p), snd p).
Proof. destruct p as [[a b] c]. reflexivity. Qed.

Lemma st_ab_reports_a :
  bloom_check (Externals := Model.externals) (bf st_ab) (cmd_hash delete_a)
  = true.
Proof. vm_compute. reflexivity. Qed.

(** C1, counterexample: with [mods] at [MOD_LIMIT] and the hash file
    opened, [sync_cache] rewrites the file and [mods] is 10000 afterwards,
    not 0. *)
Lemma sync_cache_mods_not_reset :
  MOD_LIMIT <= mods st_full /\
  snd late_sync = Some ("fuzzy.db"%string, [node_b]) /\
  mods (fst late_sync) = 10000 /\
  mods (fst late_sync) <> 0.
Proof.
  split; [vm_compute; discriminate|].
  split; [exact late_sync_written|].
  split; [vm_compute; reflexivity | vm_compute; discriminate].
Qed.

Lemma sync_cache_keeps_mods_witness :
  mods (fst late_sync) = mods st_full /\
  MOD_LIMIT <= mods (fst late_sync) /\
  mods (fst late_sync) <> 0.
Proof.
  exact (sync_cache_keeps_mods (E := Model.externals) conf open_always
           now_late st_full (fst late_sync) "fuzzy.db"%string [node_b]
           late_sync_eq).
Defined.

(** C2, counterexample: DELETE of [pipe_a] on the store holding
    [pipe_a] and [pipe_b] unlinks both nodes, answers true and takes
    [mods] from 2 to 4, not to 3. *)
Lemma delete_mods_twice :
  bloom_check (Externals := Model.externals) (bf st_ab) (cmd_hash delete_a)
    = true /\
  removed (E := Model.externals) delete_a st_ab = [node_b; node_a] /\
  fst delete_both = true /\
  mods st_ab = 2 /\
  mods (snd delete_both) = 4 /\
  mods (snd delete_both) <> wrap32 (mods st_ab + 1).
Proof.
  repeat split; try (vm_compute; reflexivity).
  vm_compute. discriminate.
Qed.

Lemma delete_command_spec_witness :
  (fst (process_delete_command (E := Model.externals) delete_a Model.empty)
     = false /\
   snd (process_delete_command (E := Model.externals) delete_a Model.empty)
     = Model.empty) /\
  mods (snd delete_both) = 4 /\
  fst delete_both = true.
Proof.
  destruct (delete_command_spec (E := Model.externals) delete_a Model.empty)
    as [Habsent _].
  destruct (delete_command_spec (E := Model.externals) delete_a st_ab)
    as [_ Hpresent].
  destruct (Hpresent st_ab_reports_a) as (_ & _ & _ & Hm & Hr).
  split; [apply Habsent; vm_compute; reflexivity|].
  split.
  - rewrite Hm. vm_compute. reflexivity.
  - rewrite Hr. vm_compute. reflexivity.
Defined.

Lemma write_command_spec_witness :
  (fst (process_write_command (E := Model.externals) 1002 write_a st_a)
     = false /\
   snd (process_write_command (E := Model.externals) 1002 write_a st_a)
     = st_a) /\
  (fst (process_write_command (E := Model.externals) 1000 write_a Model.empty)
     = true /\
   hashes (snd (process_write_command (E := Model.externals) 1000 write_a
                  Model.empty)) (cmd_blocksize write_a mod BUCKETS)
     = mk_node (query_of write_a) (wrap64 1000)
       :: hashes Model.empty (cmd_blocksize write_a mod BUCKETS) /\
   mods (snd (process_write_command (E := Model.externals) 1000 write_a
                Model.empty)) = mods Model.empty + 1).
Proof.
  destruct (write_command_spec (E := Model.externals) 1002 write_a st_a)
    as [Hpresent _].
  destruct (write_command_spec (E := Model.externals) 1000 write_a Model.empty)
    as [_ Habsent].
  split; [apply Hpresent; vm_compute; reflexivity|].
  destruct Habsent as (Hres & _ & Hhead & _ & _ & _ & Hmods);
    [vm_compute; reflexivity|].
  split; [exact Hres|]. split; [exact Hhead|].
  apply Hmods. vm_compute. split; [discriminate | reflexivity].
Defined.

Lemma check_command_spec_witness :
  fst (process_check_command (E := Model.externals) check_z st_a) = false /\
  (fst (process_check_command (E := Model.externals) check_a st_a) = true <->
   exists n, In n (hashes st_a (cmd_blocksize check_a mod BUCKETS)) /\
     fuzzy_compare_hashes (Externals := Model.externals) (node_h n)
       (query_of check_a) > LEV_LIMIT).
Proof.
  destruct (check_command_spec (E := Model.externals) check_z st_a)
    as (_ & Habsent & _).
  destruct (check_command_spec (E := Model.externals) check_a st_a)
    as (_ & _ & Hpresent).
  split; [apply Habsent; vm_compute; reflexivity|].
  apply Hpresent. vm_compute. reflexivity.
Defined.

(** The second premise of the round trip is not idle: in the model
    of the score by edit distance, WRITE of [pipe_a] on the empty store
    answers true, [pipe_b] has the same block size and scores 100 against
    it, the filter does not report [pipe_b], and CHECK of [pipe_b] answers
    false. *)
Lemma write_then_check_other_pipe :
  fst (process_write_command (E := Model.externals) 1000 write_a Model.empty)
    = true /\
  cmd_blocksize check_b = cmd_blocksize write_a /\
  fuzzy_compare_hashes (Externals := Model.externals) (query_of write_a)
    (query_of check_b) = 100 /\
  cmd_hash check_b <> cmd_hash write_a /\
  fst (process_check_command (E := Model.externals) check_b
         (snd (process_write_command (E := Model.externals) 1000 write_a
                 Model.empty)))
    = false.
Proof.
  repeat split; try (vm_compute; reflexivity).
  vm_compute. discriminate.
Qed.





Lemma sync_cache_expiry_witness :
  (~ In node_a (hashes (fst late_sync) 128) /\ ~ In node_a [node_b]) /\
  (In node_b (hashes (fst late_sync) 128) /\ In node_b [node_b]).
Proof.
  destruct (sync_cache_expiry (E := Model.externals) conf open_always
              now_late st_full (fst late_sync) "fuzzy.db"%string [node_b]
              late_sync_eq)
    as (_ & _ & Hall & _).
  assert (Hi : 0 <= 128 < BUCKETS) by (unfold BUCKETS; lia).
  split.
  - destruct (Hall 128 node_a Hi) as [Hold _].
    { vm_compute. right. left. reflexivity. }
    destruct Hold as (Hgone & _ & Hout); [vm_compute; reflexivity|].
    split; assumption.
  - destruct (Hall 128 node_b Hi) as [_ Hnew].
    { vm_compute. left. reflexivity. }
    apply Hnew. vm_compute. reflexivity.
Defined.

Lemma read_hashes_file_spec_witness :
  hashes (snd loaded) 128
    = rev (filter (in_bucket 128) [node_a; node_b]) /\
  fst loaded = true.
Proof.
  destruct (read_hashes_file_spec (E := Model.externals) conf open_reads
              Model.empty "fuzzy.db"%string
              [mk_node_read 80 node_a; mk_node_read 80 node_b]
              [mk_node_read 17 node_a])
    as (_ & Hbucket & _ & _ & Hshort & _).
  - reflexivity.
  - reflexivity.
  - repeat constructor.
  - vm_compute. discriminate.
  - split; [exact (Hbucket 128) | apply Hshort; reflexivity].
Defined.

Lemma io_callback_eof_keeps_session_witness :
  fuzzy_io_callback (E := Model.externals) EV_READ (mk_sock_read 0 []) 4 2000
    session_10 Model.empty
  = (Some session_10, Model.empty, []).
Proof.
  apply (io_callback_eof_keeps_session (E := Model.externals) session_10 []
           4 2000 Model.empty).
  vm_compute. discriminate.
Defined.

Lemma session_10_reachable : reachable (E := Model.externals) session_10.
Proof.
  apply (reachable_read (E := Model.externals) (accept_session 7) EV_READ
           (mk_sock_read 10 frame_a_head) 4 1000 Model.empty session_10
           Model.empty []).
  - apply reachable_accept.
  - right. vm_compute. repeat split; discriminate.
  - reflexivity.
Qed.

Lemma io_callback_frame_complete_witness :
  Z.of_nat (List.length (session_cmd session_10 ++ frame_a_tail))
    = sizeof_fuzzy_cmd (Externals := Model.externals) /\
  write_a = fuzzy_cmd_of_bytes (Externals := Model.externals)
              (session_cmd session_10 ++ frame_a_tail).
Proof.
  destruct (io_callback_frame_complete (E := Model.externals) session_10
              EV_READ (mk_sock_read 62 frame_a_tail) 4 1000 Model.empty
              (fst (fst read_tail)) (snd (fst read_tail)) (snd read_tail))
    as [Honly _].
  - exact session_10_reachable.
  - right. vm_compute. repeat split; discriminate.
  - exact (triple_eta read_tail).
  - apply (Honly write_a). vm_compute. left. reflexivity.
Defined.

Lemma delete_filter_uses_query_pipe_witness :
  hash_pipe (node_h node_b) <> cmd_hash delete_a /\
  bf (snd delete_both)
    = bloom_del_times (E := Model.externals)
        (List.length (removed (E := Model.externals) delete_a st_ab))
        (cmd_hash delete_a) (bf st_ab) /\
  ~ In node_b (hashes (snd delete_both) (cmd_blocksize delete_a mod BUCKETS)) /\
  bloom_check (Externals := Model.externals) (bf (snd delete_both))
    (hash_pipe (node_h node_b))
  = bloom_check (Externals := Model.externals) (bf st_ab)
      (hash_pipe (node_h node_b)).
Proof.
  assert (Hin : In node_b (removed (E := Model.externals) delete_a st_ab))
    by (vm_compute; left; reflexivity).
  destruct (delete_filter_uses_query_pipe (E := Model.externals) delete_a
              st_ab st_ab_reports_a) as [Hbf Hnode].
  destruct (Hnode node_b Hin) as [Hgone Hkept].
  split; [vm_compute; discriminate|].
  split; [exact Hbf|]. split; [exact Hgone|].
  apply Hkept. intros b.
  apply (model_bloom_del_disjoint (cmd_hash delete_a)
           (hash_pipe (node_h node_b)) b).
  vm_compute. reflexivity.
Defined.

(** * Further properties of the worker *)

Section Partition.
Context {E : Externals}.

Lemma partitioned_push hs n :
  partitioned hs ->
  partitioned (g_queue_push_head hs (block_size (node_h n) mod BUCKETS) n).
Proof.
  intros Hp i m. unfold g_queue_push_head, array_set.
  destruct (Z.eqb_spec i (block_size (node_h n) mod BUCKETS)) as [->|Hne].
  - intros [<-|Hin]; [reflexivity | now apply Hp].
  - apply Hp.
Qed.

Lemma partitioned_shrink hs i l :
  partitioned hs -> (forall n, In n l -> In n (hs i)) ->
  partitioned (array_set hs i l).
Proof.
  intros Hp Hsub j m. unfold array_set.
  destruct (Z.eqb_spec j i) as [->|Hne].
  - intros Hin. apply Hp. now apply Hsub.
  - apply Hp.
Qed.

Lemma process_write_partitioned now c st :
  partitioned (hashes st) ->
  partitioned (hashes (snd (process_write_command now c st))).
Proof.
  intros Hp. unfold process_write_command.
  destruct (bloom_check (bf st) (cmd_hash c)); cbn [snd hashes]; [exact Hp|].
  exact (partitioned_push (hashes st)
           (mk_node (mk_fuzzy_hash (cmd_hash c) (cmd_blocksize c))
              (wrap64 now)) Hp).
Qed.

Lemma process_delete_partitioned c st :
  partitioned (hashes st) ->
  partitioned (hashes (snd (process_delete_command c st))).
Proof.
  intros Hp. unfold process_delete_command.
  destruct (bloom_check (bf st) (cmd_hash c)); cbn [negb snd hashes];
    [|exact Hp].
  apply partitioned_shrink; [exact Hp|].
  destruct (delete_scan_spec c (hashes st (cmd_blocksize c mod BUCKETS))
              (bf st) (mods st) false) as (Hq & _).
  intros n Hn. rewrite Hq in Hn. now apply filter_In in Hn.
Qed.

Lemma dispatch_partitioned wr now fd c st :
  partitioned (hashes st) ->
  partitioned (hashes (fst (process_fuzzy_command wr now fd c st))).
Proof.
  intros Hp. unfold process_fuzzy_command, CMD_PROCESS.
  destruct (cmd_cmd c =? FUZZY_CHECK).
  { unfold process_check_command.
    destruct (negb (bloom_check (bf st) (cmd_hash c))); cbn [fst snd].
    - exact Hp.
    - destruct (check_scan _ _); exact Hp. }
  destruct (cmd_cmd c =? FUZZY_WRITE).
  { pose proof (process_write_partitioned now c st Hp) as Hw.
    destruct (fst (process_write_command now c st)); exact Hw. }
  destruct (cmd_cmd c =? FUZZY_DEL).
  { pose proof (process_delete_partitioned c st Hp) as Hd.
    destruct (fst (process_delete_command c st)); exact Hd. }
  exact Hp.
Qed.

(** X1: whatever event a session gets, whatever the read returns and
    whatever command the frame carries, [fuzzy_io_callback] keeps every
    node in the bucket of its block size. *)
Theorem callback_keeps_partition what rd wr now session st :
  partitioned (hashes st) ->
  partitioned
    (hashes (snd (fst (fuzzy_io_callback what rd wr now session st)))).
Proof.
  intros Hp. unfold fuzzy_io_callback.
  destruct (what =? EV_READ); [|exact Hp].
  destruct (sr_ret rd =? -1); [exact Hp|].
  destruct (session_pos session + sr_ret rd =? sizeof_fuzzy_cmd);
    [|exact Hp].
  pose proof (dispatch_partitioned wr now (session_fd session)
                (fuzzy_cmd_of_bytes (session_cmd session ++ sr_bytes rd))
                st Hp) as Hd.
  destruct (process_fuzzy_command wr now (session_fd session)
              (fuzzy_cmd_of_bytes (session_cmd session ++ sr_bytes rd)) st)
    as [st1 acts1].
  exact Hd.
Qed.

Lemma read_loop_partitioned reads : forall hs b,
  partitioned hs -> partitioned (snd (fst (read_loop reads hs b))).
Proof.
  induction reads as [|rd rest IH]; intros hs b Hp; cbn [read_loop].
  - exact Hp.
  - destruct (nr_ret rd =? sizeof_rspamd_fuzzy_node); cbn [negb].
    + apply IH. now apply partitioned_push.
    + exact Hp.
Qed.

(** X2: whatever the index held and whatever the hash file holds,
    after [read_hashes_file] every node sits in the bucket of its block
    size. *)
Theorem load_partitioned wrk open_rd st :
  partitioned (hashes (snd (read_hashes_file wrk open_rd st))).
Proof.
  assert (Hempty : partitioned (fun _ : Z => @nil rspamd_fuzzy_node))
    by (intros i n []).
  unfold read_hashes_file.
  destruct (param_hashfile wrk) as [filename|]; [|exact Hempty].
  destruct (open_rd filename) as [reads|]; [|exact Hempty].
  cbn [hashes bf].
  pose proof (read_loop_partitioned reads (fun _ => []) (bf st) Hempty) as Hl.
  destruct (read_loop reads (fun _ => []) (bf st)) as [[r hs] b].
  cbn [fst snd] in Hl.
  destruct (r >? 0); [exact Hl|]. destruct (r =? -1); exact Hl.
Qed.

Lemma sync_cache_partitioned wrk open_ok now st :
  partitioned (hashes st) ->
  partitioned (hashes (fst (sync_cache wrk open_ok now st))).
Proof.
  intros Hp. unfold sync_cache.
  destruct (mods st <? MOD_LIMIT); [exact Hp|].
  destruct (param_hashfile wrk) as [f|]; [|exact Hp].
  destruct (open_ok f); cbn [negb]; [|exact Hp].
  pose proof (sync_buckets_spec (wrap64 now) (expire_of wrk)
                (Z.to_nat BUCKETS) 0 (hashes st) (bf st) []) as Hspec.
  cbv zeta in Hspec. destruct Hspec as (Hin & Hout & _).
  destruct (sync_buckets (wrap64 now) (expire_of wrk) (Z.to_nat BUCKETS) 0
              (hashes st) (bf st) []) as [[hs b] o].
  cbn [fst snd hashes] in *.
  intros j n Hn.
  destruct (in_dec Z.eq_dec j (bucket_range (Z.to_nat BUCKETS) 0))
    as [Hj|Hj].
  - rewrite (Hin j Hj) in Hn. apply filter_In in Hn. now apply Hp.
  - rewrite (Hout j Hj) in Hn. now apply Hp.
Qed.

(** X3: the timer's [sync_callback] and the SIGTERM handler keep
    every node in the bucket of its block size, whether they rewrite the
    file or not. *)
Theorem sync_keeps_partition wrk open_ok now st :
  partitioned (hashes st) ->
  partitioned (hashes (fst (sync_callback wrk open_ok now st))) /\
  partitioned (hashes (fst (sigterm_handler wrk open_ok now st))).
Proof.
  intros Hp. split.
  - unfold sync_callback. now apply sync_cache_partitioned.
  - unfold sigterm_handler.
    apply (sync_cache_partitioned wrk open_ok now
             (mk_storage (hashes st) (bf st) (MOD_LIMIT + 1))).
    exact Hp.
Qed.

End Partition.

Section Composition.
Context {E : Externals}.

Lemma matches_same_query c c' :
  cmd_blocksize c' = cmd_blocksize c -> cmd_hash c' = cmd_hash c ->
  forall n, matches c' n = matches c n.
Proof.
  intros Hbs Hh n. unfold matches, query_of. now rewrite Hbs, Hh.
Qed.

Lemma filter_out_then_in {A} (f : A -> bool) l :
  filter f (filter (fun x => negb (f x)) l) = [].
Proof.
  induction l as [|x l IH]; cbn [filter]; [reflexivity|].
  destruct (f x) eqn:Hx; cbn [negb filter]; [exact IH|].
  now rewrite Hx.
Qed.

Lemma filter_none_keeps_all {A} (f : A -> bool) l :
  filter f l = [] -> filter (fun x => negb (f x)) l = l.
Proof.
  induction l as [|x l IH]; cbn [filter]; [reflexivity|].
  destruct (f x); cbn [negb]; [discriminate|].
  intros Hl. now rewrite IH.
Qed.

Lemma existsb_filter_out {A} (f : A -> bool) l :
  existsb f (filter (fun x => negb (f x)) l) = false.
Proof.
  induction l as [|x l IH]; cbn [filter existsb]; [reflexivity|].
  destruct (f x) eqn:Hx; cbn [negb existsb]; [exact IH|].
  now rewrite Hx.
Qed.

Lemma existsb_same {A} (f g : A -> bool) l :
  (forall x, f x = g x) -> existsb f l = existsb g l.
Proof.
  intros Hfg. induction l as [|x l IH]; cbn [existsb]; [reflexivity|].
  now rewrite Hfg, IH.
Qed.

(** The bucket a DELETE leaves holds no match of its command. *)
Lemma process_delete_no_match c st :
  bloom_check (bf st) (cmd_hash c) = true ->
  filter (matches c)
    (hashes (snd (process_delete_command c st))
       (cmd_blocksize c mod BUCKETS)) = [].
Proof.
  intros Hb. destruct (process_delete_present c st Hb) as (Hq & _).
  rewrite Hq. apply filter_out_then_in.
Qed.

(** X4: after a DELETE, a CHECK of the same hash and block size
    answers false, whatever the filter reports. *)
Theorem delete_then_check c c' st :
  cmd_blocksize c' = cmd_blocksize c -> cmd_hash c' = cmd_hash c ->
  fst (process_check_command c' (snd (process_delete_command c st))) = false.
Proof.
  intros Hbs Hh.
  destruct (bloom_check (bf st) (cmd_hash c)) eqn:Hb.
  - destruct (process_delete_present c st Hb) as (Hq & _).
    unfold process_check_command.
    destruct (negb (bloom_check (bf (snd (process_delete_command c st)))
                      (cmd_hash c'))); [reflexivity|].
    cbn [fst]. rewrite check_scan_existsb, Hbs, Hq.
    rewrite (existsb_same _ _ _ (matches_same_query c c' Hbs Hh)).
    apply existsb_filter_out.
  - unfold process_delete_command. rewrite Hb. cbn [negb snd].
    unfold process_check_command. rewrite Hh, Hb. reflexivity.
Qed.

(** X5: a second DELETE of the same command answers false and leaves
    the filter, [mods] and every bucket as the first one left them. *)
Theorem delete_twice c st :
  let st1 := snd (process_delete_command c st) in
  let st2 := snd (process_delete_command c st1) in
  fst (process_delete_command c st1) = false /\
  bf st2 = bf st1 /\ mods st2 = mods st1 /\
  forall j, hashes st2 j = hashes st1 j.
Proof.
  cbv zeta.
  set (st1 := snd (process_delete_command c st)).
  destruct (bloom_check (bf st1) (cmd_hash c)) eqn:Hb1.
  - assert (Hnone : removed c st1 = []).
    { unfold removed, st1.
      destruct (bloom_check (bf st) (cmd_hash c)) eqn:Hb.
      - now apply process_delete_no_match.
      - exfalso. unfold st1, process_delete_command in Hb1.
        rewrite Hb in Hb1. cbn [negb snd] in Hb1. congruence. }
    destruct (process_delete_present c st1 Hb1)
      as (Hq & Hother & Hbf & Hm & Hr).
    rewrite Hnone in Hbf, Hm, Hr. cbn in Hbf, Hm, Hr.
    split; [exact Hr|]. split; [exact Hbf|]. split; [exact Hm|].
    intros j. destruct (Z.eq_dec j (cmd_blocksize c mod BUCKETS)) as [->|Hne].
    + rewrite Hq. now apply filter_none_keeps_all.
    + now apply Hother.
  - unfold process_delete_command at 1 2 3 4. rewrite Hb1. cbn [negb fst snd].
    repeat split; reflexivity.
Qed.

(** X6: once a pipe has been through WRITE, a WRITE of the same pipe
    is refused and changes nothing, provided the filter reports a pipe
    that has just been added to it. *)
Theorem write_twice now now' c c' st :
  bloom_check (bloom_add (bf st) (cmd_hash c)) (cmd_hash c) = true ->
  cmd_hash c' = cmd_hash c ->
  process_write_command now' c' (snd (process_write_command now c st))
  = (false, snd (process_write_command now c st)).
Proof.
  intros Hadd Hh. unfold process_write_command at 2 3.
  destruct (bloom_check (bf st) (cmd_hash c)) eqn:Hb; cbn [snd].
  - unfold process_write_command. now rewrite Hh, Hb.
  - unfold process_write_command. cbn [bf]. now rewrite Hh, Hadd.
Qed.

(** X7: a DELETE right after a WRITE of the same hash that answered
    true answers true and unlinks the node just written: the bucket is
    left with the nodes it held before the WRITE that do not match, and
    the other buckets are as before the WRITE.  The filter must report
    the pipe just added and the hash must score above 99 against
    itself. *)
Theorem write_then_delete now c c' st :
  fst (process_write_command now c st) = true ->
  cmd_blocksize c' = cmd_blocksize c -> cmd_hash c' = cmd_hash c ->
  bloom_check (bloom_add (bf st) (cmd_hash c)) (cmd_hash c) = true ->
  fuzzy_compare_hashes (query_of c) (query_of c) > LEV_LIMIT ->
  let i := cmd_blocksize c mod BUCKETS in
  let st1 := snd (process_write_command now c st) in
  let st2 := snd (process_delete_command c' st1) in
  fst (process_delete_command c' st1) = true /\
  hashes st2 i = filter (fun n => negb (matches c n)) (hashes st i) /\
  (forall j, j <> i -> hashes st2 j = hashes st j).
Proof.
  intros Hw Hbs Hh Hadd Hself. cbv zeta.
  unfold process_write_command in *.
  destruct (bloom_check (bf st) (cmd_hash c)); cbn [fst snd] in *;
    [discriminate|].
  set (node := mk_node (mk_fuzzy_hash (cmd_hash c) (cmd_blocksize c))
                 (wrap64 now)).
  set (st1 := mk_storage _ _ _).
  assert (Hb1 : bloom_check (bf st1) (cmd_hash c') = true)
    by (rewrite Hh; exact Hadd).
  assert (Hnode : matches c node = true) by (apply matches_gt; exact Hself).
  destruct (process_delete_present c' st1 Hb1) as (Hq & Hother & _ & _ & Hr).
  rewrite Hbs in Hq, Hother.
  assert (Hbucket : hashes st1 (cmd_blocksize c mod BUCKETS)
                    = node :: hashes st (cmd_blocksize c mod BUCKETS)).
  { unfold st1. cbn [hashes]. unfold g_queue_push_head.
    apply array_set_same. }
  split; [|split].
  - rewrite Hr. unfold removed. rewrite Hbs, Hbucket. cbn [filter].
    rewrite (matches_same_query c c' Hbs Hh), Hnode. reflexivity.
  - rewrite Hq, Hbucket. cbn [filter].
    rewrite (matches_same_query c c' Hbs Hh), Hnode. cbn [negb].
    apply filter_ext. intros n.
    now rewrite (matches_same_query c c' Hbs Hh).
  - intros j Hj. rewrite (Hother j Hj). unfold st1. cbn [hashes].
    unfold g_queue_push_head. now apply array_set_other.
Qed.

(** X8: a WRITE does not hide a hash that CHECK found: if CHECK of
    [c'] answered true and the filter still reports its pipe after the
    pipe of [c] has been added, CHECK of [c'] answers true after the
    WRITE of [c]. *)
Theorem write_keeps_found now c c' st :
  fst (process_check_command c' st) = true ->
  bloom_check (bloom_add (bf st) (cmd_hash c)) (cmd_hash c') = true ->
  fst (process_check_command c' (snd (process_write_command now c st)))
  = true.
Proof.
  intros Hfound Hadd.
  unfold process_check_command in Hfound.
  destruct (bloom_check (bf st) (cmd_hash c')) eqn:Hb';
    cbn [negb fst] in Hfound; [|discriminate].
  unfold process_write_command.
  destruct (bloom_check (bf st) (cmd_hash c)); cbn [snd].
  - unfold process_check_command. rewrite Hb'. exact Hfound.
  - unfold process_check_command. cbn [bf hashes]. rewrite Hadd. cbn [negb fst].
    rewrite check_scan_existsb in *. unfold g_queue_push_head, array_set.
    destruct (cmd_blocksize c' mod BUCKETS =? cmd_blocksize c mod BUCKETS)
      eqn:Hsame.
    + apply Z.eqb_eq in Hsame. rewrite <- Hsame. cbn [existsb].
      rewrite Hfound. apply orb_true_r.
    + exact Hfound.
Qed.

Lemma reply_ok_not_err : reply_ok <> reply_err.
Proof. unfold reply_ok, reply_err. discriminate. Qed.

(** The reply written after OK does not hold the ERR line. *)
Lemma ok_reply_has_no_err fd wr c :
  ~ In (Act_write fd reply_err) (Act_process c :: write_reply fd wr reply_ok).
Proof.
  unfold write_reply. intros Hin.
  destruct (wr =? -1); cbn [In] in Hin;
    repeat (destruct Hin as [Hin|Hin];
            [try discriminate;
             injection Hin as Hin; now apply reply_ok_not_err|]);
    exact Hin.
Qed.

(** X9: [process_fuzzy_command] answers a command byte that is none of
    the three commands with ERR (logging an error when the [write] of the
    reply fails) and leaves the store alone; and whenever the reply it
    writes is ERR, the filter, [mods] and every bucket are as before,
    whether or not that write succeeds. *)
Theorem reply_err_keeps_store wr now fd c st :
  (cmd_cmd c <> FUZZY_CHECK -> cmd_cmd c <> FUZZY_WRITE ->
   cmd_cmd c <> FUZZY_DEL ->
   process_fuzzy_command wr now fd c st
   = (st, Act_process c :: write_reply fd wr reply_err)) /\
  (In (Act_write fd reply_err) (snd (process_fuzzy_command wr now fd c st)) ->
   let st' := fst (process_fuzzy_command wr now fd c st) in
   bf st' = bf st /\ mods st' = mods st /\
   forall j, hashes st' j = hashes st j).
Proof.
  split.
  - intros Hc Hw Hd. unfold process_fuzzy_command.
    destruct (Z.eqb_spec (cmd_cmd c) FUZZY_CHECK); [contradiction|].
    destruct (Z.eqb_spec (cmd_cmd c) FUZZY_WRITE); [contradiction|].
    destruct (Z.eqb_spec (cmd_cmd c) FUZZY_DEL); [contradiction|].
    reflexivity.
  - unfold process_fuzzy_command, CMD_PROCESS.
    destruct (cmd_cmd c =? FUZZY_CHECK).
    { unfold process_check_command.
      destruct (negb (bloom_check (bf st) (cmd_hash c))); cbn [fst snd].
      - intros _. repeat split.
      - destruct (check_scan _ _); cbn [fst snd]; intros _; repeat split. }
    destruct (cmd_cmd c =? FUZZY_WRITE).
    { unfold process_write_command.
      destruct (bloom_check (bf st) (cmd_hash c)); cbn [fst snd].
      - intros _. repeat split.
      - intros Hin. now apply ok_reply_has_no_err in Hin. }
    destruct (cmd_cmd c =? FUZZY_DEL).
    { destruct (bloom_check (bf st) (cmd_hash c)) eqn:Hb.
      - destruct (process_delete_present c st Hb)
          as (Hq & Hother & Hbf & Hm & Hr).
        destruct (fst (process_delete_command c st)) eqn:Hres; cbn [fst snd].
        + intros Hin. now apply ok_reply_has_no_err in Hin.
        + intros _. symmetry in Hr. apply negb_false_iff in Hr.
          apply Nat.eqb_eq in Hr. rewrite Hr in Hbf, Hm. cbn in Hbf, Hm.
          split; [exact Hbf|]. split; [exact Hm|].
          intros j.
          destruct (Z.eq_dec j (cmd_blocksize c mod BUCKETS)) as [->|Hne].
          * rewrite Hq. apply filter_none_keeps_all.
            now apply length_zero_iff_nil.
          * now apply Hother.
      - unfold process_delete_command. rewrite Hb. cbn [negb fst snd].
        intros _. repeat split. }
    cbn [fst snd]. intros _. repeat split.
Qed.

End Composition.

Section Snapshot_more.
Context {E : Externals}.

Lemma walk_order_ext hs hs' idx :
  (forall j, In j idx -> hs' j = hs j) ->
  walk_order hs' idx = walk_order hs idx.
Proof.
  unfold walk_order. induction idx as [|j idx IH]; intros Heq;
    cbn [flat_map]; [reflexivity|].
  rewrite Heq by now left. rewrite IH; [reflexivity|].
  intros k Hk. apply Heq. now right.
Qed.

Lemma walk_order_filter (f : rspamd_fuzzy_node -> bool) hs idx :
  walk_order (fun j => filter f (hs j)) idx = filter f (walk_order hs idx).
Proof.
  unfold walk_order. induction idx as [|j idx IH]; cbn [flat_map];
    [reflexivity|].
  now rewrite filter_app, IH.
Qed.

Lemma filter_twice {A} (f : A -> bool) l : filter f (filter f l) = filter f l.
Proof.
  induction l as [|x l IH]; cbn [filter]; [reflexivity|].
  destruct (f x) eqn:Hx; cbn [filter]; [now rewrite Hx, IH | exact IH].
Qed.

Lemma expired_pipes_fresh now expire l :
  expired_pipes now expire (filter (fresh now expire) l) = [].
Proof.
  unfold expired_pipes.
  induction l as [|n l IH]; cbn [filter]; [reflexivity|].
  rewrite fresh_expired.
  destruct (expired now expire n) eqn:He; cbn [negb filter]; [exact IH|].
  rewrite He. exact IH.
Qed.

(** What a rewrite leaves in the index, walked in bucket order. *)
Lemma sync_cache_walk wrk open_ok now st st' filename out :
  sync_cache wrk open_ok now st = (st', Some (filename, out)) ->
  walk_order (hashes st') all_buckets
  = filter (fresh (wrap64 now) (expire_of wrk))
      (walk_order (hashes st) all_buckets).
Proof.
  intros Heq.
  destruct (sync_cache_rewrite _ _ _ _ _ _ _ Heq)
    as (_ & _ & _ & Hhs & _).
  rewrite <- walk_order_filter. apply walk_order_ext.
  intros j Hj. apply Hhs. now apply all_buckets_In.
Qed.

(** X10: [sync_cache] touches nothing (no file is opened for writing,
    the store is returned as it is) exactly when [mods] is below
    [MOD_LIMIT], or no hash file is configured, or the file cannot be
    opened. *)
Theorem sync_cache_skips wrk open_ok now st :
  (snd (sync_cache wrk open_ok now st) = None <->
   mods st < MOD_LIMIT \/ param_hashfile wrk = None \/
   exists f, param_hashfile wrk = Some f /\ open_ok f = false) /\
  (snd (sync_cache wrk open_ok now st) = None ->
   fst (sync_cache wrk open_ok now st) = st).
Proof.
  unfold sync_cache.
  destruct (Z.ltb_spec (mods st) MOD_LIMIT) as [Hlt|Hge].
  { split; [|reflexivity]. split; [now left | reflexivity]. }
  destruct (param_hashfile wrk) as [f|].
  2:{ split; [|reflexivity]. split; [right; now left | reflexivity]. }
  destruct (open_ok f) eqn:Hopen; cbn [negb].
  2:{ split; [|reflexivity].
      split; [|reflexivity]. intros _. right. right. now exists f. }
  destruct (sync_buckets (wrap64 now) (expire_of wrk) (Z.to_nat BUCKETS) 0
              (hashes st) (bf st) []) as [[hs b] o].
  cbn [fst snd]. split; [|discriminate].
  split; [discriminate|].
  intros [Hlt | [Hnone | (g & Hg & Hclosed)]].
  - lia.
  - discriminate.
  - injection Hg as <-. congruence.
Qed.

(** X11: on SIGTERM the index is written whatever [mods] was: with a
    hash file configured that can be opened, [sigterm_handler] writes the
    nodes that have not expired, in bucket order; in every case it leaves
    [mods] at [MOD_LIMIT + 1]. *)
Theorem sigterm_forces_rewrite wrk open_ok now st :
  mods (fst (sigterm_handler wrk open_ok now st)) = MOD_LIMIT + 1 /\
  forall f, param_hashfile wrk = Some f -> open_ok f = true ->
    snd (sigterm_handler wrk open_ok now st)
    = Some (f, filter (fresh (wrap64 now) (expire_of wrk))
                 (walk_order (hashes st) all_buckets)).
Proof.
  unfold sigterm_handler. split.
  - now rewrite sync_cache_mods.
  - intros f Hf Hopen. unfold sync_cache. cbn [mods hashes bf].
    change (MOD_LIMIT + 1 <? MOD_LIMIT) with false. cbv iota.
    rewrite Hf, Hopen. cbn [negb].
    pose proof (sync_buckets_spec (wrap64 now) (expire_of wrk)
                  (Z.to_nat BUCKETS) 0 (hashes st) (bf st) []) as Hspec.
    cbv zeta in Hspec. destruct Hspec as (_ & _ & _ & Hout).
    destruct (sync_buckets (wrap64 now) (expire_of wrk) (Z.to_nat BUCKETS) 0
                (hashes st) (bf st) []) as [[hs b] o].
    cbn [fst snd] in *. rewrite Hout. reflexivity.
Qed.

(** X12: after a rewrite the file holds the index: the node images
    written are the nodes of the buckets 0 to 1023 as the rewrite leaves
    them, in that order. *)
Theorem sync_file_is_index wrk open_ok now st st' filename out :
  sync_cache wrk open_ok now st = (st', Some (filename, out)) ->
  out = walk_order (hashes st') all_buckets.
Proof.
  intros Heq. rewrite (sync_cache_walk _ _ _ _ _ _ _ Heq).
  now destruct (sync_cache_rewrite _ _ _ _ _ _ _ Heq)
    as (_ & _ & _ & _ & _ & _ & Hout).
Qed.

(** X13: a rewrite run again at the same time on the store it left
    writes the same file and changes neither the filter, nor [mods], nor
    any bucket. *)
Theorem sync_twice wrk open_ok now st st' filename out :
  sync_cache wrk open_ok now st = (st', Some (filename, out)) ->
  exists st'',
    sync_cache wrk open_ok now st' = (st'', Some (filename, out)) /\
    bf st'' = bf st' /\ mods st'' = mods st' /\
    forall j, hashes st'' j = hashes st' j.
Proof.
  intros Heq.
  pose proof (sync_cache_walk _ _ _ _ _ _ _ Heq) as Hwalk.
  destruct (sync_cache_rewrite _ _ _ _ _ _ _ Heq)
    as (Hge & Hf & Hopen & Hhs & _ & Hm & Hout).
  unfold sync_cache.
  destruct (Z.ltb_spec (mods st') MOD_LIMIT) as [Hlt|_]; [lia|].
  rewrite Hf, Hopen. cbn [negb].
  pose proof (sync_buckets_spec (wrap64 now) (expire_of wrk)
                (Z.to_nat BUCKETS) 0 (hashes st') (bf st') []) as Hspec.
  cbv zeta in Hspec. fold all_buckets in Hspec.
  destruct Hspec as (Hin & Hnot & Hbf & Ho).
  destruct (sync_buckets (wrap64 now) (expire_of wrk) (Z.to_nat BUCKETS) 0
              (hashes st') (bf st') []) as [[hs b] o].
  cbn [fst snd] in *. exists (mk_storage hs b (mods st')).
  cbn [bf mods hashes]. split.
  - f_equal. f_equal. f_equal.
    rewrite Ho, Hwalk, filter_twice. symmetry. exact Hout.
  - split; [|split; [reflexivity|]].
    + rewrite Hbf, Hwalk, expired_pipes_fresh. reflexivity.
    + intros j.
      destruct (in_dec Z.eq_dec j all_buckets) as [Hj|Hj].
      * rewrite (Hin j Hj). rewrite Hhs by now apply all_buckets_In.
        apply filter_twice.
      * now apply Hnot.
Qed.

(** With time stamps ahead of [now] the 64-bit difference wraps. *)
Lemma expired_ahead now expire n :
  0 <= now < node_time n -> node_time n < 2 ^ 64 ->
  expire < 2 ^ 64 - (node_time n - now) ->
  expired now expire n = true.
Proof.
  intros Hnow Ht He. unfold expired, wrap64.
  replace (now - node_time n) with (now - node_time n + 1 * 2 ^ 64 - 2 ^ 64)
    by lia.
  rewrite <- (Z.add_opp_r _ (2 ^ 64)).
  replace (- 2 ^ 64) with ((-1) * 2 ^ 64) by lia.
  rewrite Z.mod_add by lia. rewrite Z.mod_small by lia.
  apply Z.gtb_lt. lia.
Qed.

(** X14: a node stamped later than the time of the rewrite is dropped
    by it as if it had expired: the 64-bit difference [now - time] wraps to
    a value above any expiry below [2^64 - (time - now)]. *)
Theorem sync_drops_future_stamps wrk open_ok now st st' filename out i r :
  sync_cache wrk open_ok now st = (st', Some (filename, out)) ->
  0 <= i < BUCKETS -> In r (hashes st i) ->
  wrap64 now < node_time r < 2 ^ 64 ->
  expire_of wrk < 2 ^ 64 - (node_time r - wrap64 now) ->
  ~ In r (hashes st' i) /\ ~ In r out.
Proof.
  intros Heq Hi Hr Ht He.
  destruct (sync_cache_rewrite _ _ _ _ _ _ _ Heq)
    as (_ & _ & _ & Hhs & _ & _ & Hout).
  assert (Hexp : expired (wrap64 now) (expire_of wrk) r = true).
  { apply expired_ahead; [|lia|exact He].
    split; [|lia]. apply Z.mod_pos_bound. reflexivity. }
  split.
  - rewrite Hhs by exact Hi. rewrite filter_In, fresh_expired, Hexp.
    intros [_ Hf]. discriminate.
  - rewrite Hout, filter_In, fresh_expired, Hexp. intros [_ Hf]. discriminate.
Qed.

End Snapshot_more.

Section Loading_more.
Context {E : Externals}.

Lemma filter_all_or_none {A} (f : A -> bool) l (b : bool) :
  (forall x, In x l -> f x = b) -> filter f l = if b then l else [].
Proof.
  induction l as [|x l IH]; intros Hall; cbn [filter].
  - now destruct b.
  - rewrite (Hall x) by now left.
    rewrite IH by (intros y Hy; apply Hall; now right).
    now destruct b.
Qed.

(** In an index that keeps the buckets apart, the nodes of the walk
    that belong to bucket [i] are the nodes of bucket [i]. *)
Lemma filter_in_bucket_walk hs k : forall i0 i,
  partitioned hs ->
  filter (in_bucket i) (walk_order hs (bucket_range k i0))
  = if (i0 <=? i) && (i <? i0 + Z.of_nat k) then hs i else [].
Proof.
  induction k as [|k IH]; intros i0 i Hp.
  - cbn. destruct (Z.leb_spec i0 i), (Z.ltb_spec i (i0 + 0));
      cbn; try reflexivity; lia.
  - cbn [bucket_range]. unfold walk_order. cbn [flat_map].
    fold (walk_order hs (bucket_range k (i0 + 1))).
    rewrite filter_app, IH by exact Hp.
    rewrite (filter_all_or_none (in_bucket i) (hs i0) (i0 =? i)).
    2:{ intros n Hn. unfold in_bucket. now rewrite (Hp i0 n Hn). }
    destruct (Z.eqb_spec i0 i) as [->|Hne].
    + destruct (Z.leb_spec (i + 1) i); [lia|]. cbn [andb].
      destruct (Z.leb_spec i i); [|lia].
      destruct (Z.ltb_spec i (i + Z.of_nat (S k))); [|lia].
      cbn [andb]. apply app_nil_r.
    + cbn [app].
      destruct (Z.leb_spec (i0 + 1) i), (Z.ltb_spec i (i0 + 1 + Z.of_nat k)),
        (Z.leb_spec i0 i), (Z.ltb_spec i (i0 + Z.of_nat (S k)));
        cbn [andb]; try reflexivity; lia.
Qed.

Lemma reads_of_images_nodes l : map nr_node (reads_of_images l) = l.
Proof.
  unfold reads_of_images. rewrite map_map. cbn [nr_node]. apply map_id.
Qed.

Lemma reads_of_images_complete l :
  Forall (fun rd => nr_ret rd = sizeof_rspamd_fuzzy_node) (reads_of_images l).
Proof.
  unfold reads_of_images. apply Forall_forall. intros rd Hrd.
  apply in_map_iff in Hrd. destruct Hrd as (n & <- & _). reflexivity.
Qed.

(** X15: reading back the file a rewrite has written gives the index
    the rewrite left with every bucket in reverse order, and loading
    succeeds; the filter has the pipe of every node written added to it.
    The index rewritten must keep every node in the bucket of its block
    size. *)
Theorem reload_reverses wrk open_ok open_rd now st st' filename out st0 :
  partitioned (hashes st) ->
  sync_cache wrk open_ok now st = (st', Some (filename, out)) ->
  open_rd filename = Some (reads_of_images out) ->
  fst (read_hashes_file wrk open_rd st0) = true /\
  (forall i, 0 <= i < BUCKETS ->
     hashes (snd (read_hashes_file wrk open_rd st0)) i = rev (hashes st' i)) /\
  bf (snd (read_hashes_file wrk open_rd st0)) = load_pipes out (bf st0).
Proof.
  intros Hp Heq Hopen.
  destruct (sync_cache_rewrite _ _ _ _ _ _ _ Heq)
    as (_ & Hf & _ & Hhs & _ & _ & Hout).
  unfold read_hashes_file. rewrite Hf, Hopen. cbn [hashes bf mods].
  rewrite <- (app_nil_r (reads_of_images out)).
  rewrite read_loop_spec by (apply reads_of_images_complete || exact I).
  rewrite reads_of_images_nodes. cbn [final_ret].
  change (0 >? 0) with false. change (0 =? -1) with false. cbv iota.
  cbn [fst snd hashes bf].
  split; [reflexivity|]. split; [|reflexivity].
  intros i Hi. rewrite load_nodes_bucket, app_nil_r. f_equal.
  rewrite Hhs by exact Hi. rewrite Hout.
  assert (Hswap : forall (f g : rspamd_fuzzy_node -> bool) l,
            filter f (filter g l) = filter g (filter f l)).
  { intros f g l. induction l as [|x l IH]; cbn [filter]; [reflexivity|].
    destruct (g x) eqn:Hg, (f x) eqn:Hfx; cbn [filter];
      rewrite ?Hg, ?Hfx, IH; reflexivity. }
  rewrite Hswap. f_equal. unfold all_buckets.
  rewrite filter_in_bucket_walk by exact Hp.
  rewrite Z2Nat.id by (unfold BUCKETS; lia).
  destruct (Z.leb_spec 0 i), (Z.ltb_spec i (0 + BUCKETS));
    cbn [andb]; try reflexivity; lia.
Qed.

Lemma reads_split reads :
  reads = complete_reads reads ++ pending_reads reads /\
  Forall (fun rd => nr_ret rd = sizeof_rspamd_fuzzy_node)
    (complete_reads reads) /\
  ends_loading (pending_reads reads).
Proof.
  induction reads as [|rd rest (Hsplit & Hfull & Htail)];
    cbn [complete_reads pending_reads].
  - repeat split. constructor.
  - destruct (Z.eqb_spec (nr_ret rd) sizeof_rspamd_fuzzy_node) as [Heq|Hne].
    + split; [cbn [app]; now rewrite <- Hsplit|].
      split; [now constructor | exact Htail].
    + repeat split; [constructor | exact Hne].
Qed.

(** X16: [read_hashes_file] reports failure in three cases only: no
    hash file is configured, the file cannot be opened, or the read that
    ends the loop returned -1.  A short last read or a plain end of file
    is a success. *)
Theorem load_fails_only wrk open_rd st :
  fst (read_hashes_file wrk open_rd st) = false <->
  param_hashfile wrk = None \/
  (exists f, param_hashfile wrk = Some f /\ open_rd f = None) \/
  (exists f reads, param_hashfile wrk = Some f /\
     open_rd f = Some reads /\ final_ret (pending_reads reads) = -1).
Proof.
  unfold read_hashes_file.
  destruct (param_hashfile wrk) as [f|].
  2:{ split; [now left | reflexivity]. }
  destruct (open_rd f) as [reads|] eqn:Hopen.
  2:{ split; [|reflexivity]. intros _. right. left. now exists f. }
  destruct (reads_split reads) as (Hsplit & Hfull & Htail).
  rewrite Hsplit at 1. cbn [hashes bf].
  rewrite read_loop_spec by assumption.
  set (r := final_ret (pending_reads reads)).
  split.
  - destruct (r >? 0); cbn [fst]; [discriminate|].
    destruct (Z.eqb_spec r (-1)) as [Hr|Hr]; cbn [fst]; [|discriminate].
    intros _. right. right. exists f, reads.
    split; [reflexivity|]. split; [exact Hopen | exact Hr].
  - intros [Hnone | [(g & Hg & Hclosed) | (g & reads' & Hg & Hreads & Hr)]].
    + discriminate.
    + injection Hg as <-. congruence.
    + injection Hg as <-. rewrite Hopen in Hreads. injection Hreads as <-.
      fold r in Hr. rewrite Hr. reflexivity.
Qed.

(** [bloom_sound] through a WRITE and through the loading loop, for a
    filter that reports what was added and forgets nothing on [add]. *)
Lemma bloom_sound_push hs b m m' n :
  (forall b p, bloom_check (bloom_add b p) p = true) ->
  (forall b p q, bloom_check b q = true ->
                 bloom_check (bloom_add b p) q = true) ->
  bloom_sound (mk_storage hs b m) ->
  bloom_sound
    (mk_storage (g_queue_push_head hs (block_size (node_h n) mod BUCKETS) n)
       (bloom_add b (hash_pipe (node_h n))) m').
Proof.
  intros Hadd Hmono Hs i x. cbn [hashes bf].
  unfold g_queue_push_head, array_set.
  destruct (Z.eqb_spec i (block_size (node_h n) mod BUCKETS)) as [->|Hne].
  - intros [<-|Hin]; [apply Hadd|]. apply Hmono. exact (Hs _ x Hin).
  - intros Hin. apply Hmono. exact (Hs i x Hin).
Qed.

(** X17: with a filter that reports a pipe once added and keeps
    reporting it when other pipes are added, a WRITE keeps the filter
    reporting the pipe of every node of the index. *)
Theorem write_keeps_bloom_sound now c st :
  (forall b p, bloom_check (bloom_add b p) p = true) ->
  (forall b p q, bloom_check b q = true ->
                 bloom_check (bloom_add b p) q = true) ->
  bloom_sound st ->
  bloom_sound (snd (process_write_command now c st)).
Proof.
  intros Hadd Hmono Hs. unfold process_write_command.
  destruct (bloom_check (bf st) (cmd_hash c)); cbn [snd]; [exact Hs|].
  destruct st as [hs b m].
  exact (bloom_sound_push hs b m (wrap32 (m + 1))
           (mk_node (mk_fuzzy_hash (cmd_hash c) (cmd_blocksize c))
              (wrap64 now)) Hadd Hmono Hs).
Qed.

Lemma read_loop_sound reads :
  (forall b p, bloom_check (bloom_add b p) p = true) ->
  (forall b p q, bloom_check b q = true ->
                 bloom_check (bloom_add b p) q = true) ->
  forall hs b m,
    bloom_sound (mk_storage hs b m) ->
    bloom_sound (mk_storage (snd (fst (read_loop reads hs b)))
                   (snd (read_loop reads hs b)) m).
Proof.
  intros Hadd Hmono.
  induction reads as [|rd rest IH]; intros hs b m Hs; cbn [read_loop].
  - exact Hs.
  - destruct (nr_ret rd =? sizeof_rspamd_fuzzy_node); cbn [negb].
    + apply IH. now apply (bloom_sound_push hs b m m).
    + exact Hs.
Qed.

(** X18: with such a filter, after [read_hashes_file] the filter
    reports the pipe of every node of the index, whatever the store held
    before and whatever the file holds. *)
Theorem load_bloom_sound wrk open_rd st :
  (forall b p, bloom_check (bloom_add b p) p = true) ->
  (forall b p q, bloom_check b q = true ->
                 bloom_check (bloom_add b p) q = true) ->
  bloom_sound (snd (read_hashes_file wrk open_rd st)).
Proof.
  intros Hadd Hmono.
  assert (Hempty : bloom_sound (mk_storage (fun _ => []) (bf st) (mods st)))
    by (intros i n []).
  unfold read_hashes_file.
  destruct (param_hashfile wrk) as [filename|]; [|exact Hempty].
  destruct (open_rd filename) as [reads|]; [|exact Hempty].
  cbn [hashes bf mods].
  pose proof (read_loop_sound reads Hadd Hmono (fun _ => []) (bf st)
                (mods st) Hempty) as Hl.
  destruct (read_loop reads (fun _ => []) (bf st)) as [[r hs] b].
  cbn [fst snd] in Hl.
  destruct (r >? 0); [exact Hl|]. destruct (r =? -1); exact Hl.
Qed.

End Loading_more.

Section Sessions_more.
Context {E : Externals}.

Lemma chunk_read_not_error bytes : (sr_ret (chunk_read bytes) =? -1) = false.
Proof. cbn [chunk_read sr_ret]. apply Z.eqb_neq. lia. Qed.

(** The callback on a read that delivers bytes. *)
Lemma fuzzy_io_callback_chunk wr now bytes session st :
  fuzzy_io_callback EV_READ (chunk_read bytes) wr now session st
  = if session_pos session + Z.of_nat (List.length bytes) =? sizeof_fuzzy_cmd
    then
      let '(st', acts) :=
        process_fuzzy_command wr now (session_fd session)
          (fuzzy_cmd_of_bytes (session_cmd session ++ bytes)) st in
      (None, st', acts ++ free_session session)
    else
      (Some (mk_session (session_fd session) (session_cmd session ++ bytes)
               (session_pos session + Z.of_nat (List.length bytes))),
       st, []).
Proof.
  unfold fuzzy_io_callback. rewrite Z.eqb_refl, chunk_read_not_error.
  reflexivity.
Qed.

(** Reads that together complete the frame have the outcome of one
    read of all their bytes. *)
Lemma session_feed_concat wr now chunks : forall session st,
  session_pos session <> sizeof_fuzzy_cmd ->
  session_pos session + Z.of_nat (List.length (List.concat chunks))
    = sizeof_fuzzy_cmd ->
  session_feed wr now (map chunk_read chunks) session st
  = fuzzy_io_callback EV_READ (chunk_read (List.concat chunks)) wr now
      session st.
Proof.
  induction chunks as [|c rest IH]; intros session st Hshort Htotal.
  - cbn in Htotal. lia.
  - cbn [map session_feed List.concat]. cbn [List.concat] in Htotal.
    rewrite length_app, Nat2Z.inj_add in Htotal.
    rewrite !fuzzy_io_callback_chunk.
    rewrite length_app, Nat2Z.inj_add.
    destruct (Z.eqb_spec
                (session_pos session
                 + (Z.of_nat (List.length c)
                    + Z.of_nat (List.length (List.concat rest))))
                sizeof_fuzzy_cmd) as [_|Hne]; [|lia].
    destruct (Z.eqb_spec (session_pos session + Z.of_nat (List.length c))
                sizeof_fuzzy_cmd) as [Hfull|Hmore].
    + assert (Hnil : List.concat rest = [])
        by (apply length_zero_iff_nil; lia).
      rewrite Hnil, app_nil_r.
      destruct (process_fuzzy_command wr now (session_fd session)
                  (fuzzy_cmd_of_bytes (session_cmd session ++ c)) st)
        as [st1 acts1].
      reflexivity.
    + rewrite IH by (cbn [session_pos]; lia).
      rewrite fuzzy_io_callback_chunk.
      cbn [session_pos session_cmd session_fd].
      rewrite <- app_assoc.
      destruct (Z.eqb_spec
                  (session_pos session + Z.of_nat (List.length c)
                   + Z.of_nat (List.length (List.concat rest)))
                  sizeof_fuzzy_cmd) as [_|Hne]; [|lia].
      unfold free_session. cbn [session_fd].
      destruct (process_fuzzy_command wr now (session_fd session)
                  (fuzzy_cmd_of_bytes
                     (session_cmd session ++ c ++ List.concat rest)) st)
        as [st1 acts1].
      reflexivity.
Qed.

(** X19: a connection that [accept_fuzzy_socket] takes and that
    delivers the bytes of one frame, cut into any number of reads, has the
    command those bytes hold dispatched once on the store and one reply
    line, OK or ERR, written to it, an error being logged when that write
    fails; then its event is deleted and its socket closed. *)
Theorem connection_one_reply wr now nfd chunks session st :
  accept_fuzzy_socket nfd = Some session ->
  0 < sizeof_fuzzy_cmd ->
  Z.of_nat (List.length (List.concat chunks)) = sizeof_fuzzy_cmd ->
  let c := fuzzy_cmd_of_bytes (List.concat chunks) in
  exists line,
    (line = reply_ok \/ line = reply_err) /\
    session_feed wr now (map chunk_read chunks) session st
    = (None, fst (process_fuzzy_command wr now nfd c st),
       (Act_process c :: write_reply nfd wr line)
       ++ [Act_event_del nfd; Act_close nfd]).
Proof.
  intros Hacc Hsize Htotal. cbv zeta.
  unfold accept_fuzzy_socket in Hacc.
  destruct (nfd =? -1); [discriminate|].
  destruct (nfd =? 0); [discriminate|].
  injection Hacc as <-.
  rewrite session_feed_concat
    by (cbn [accept_session session_pos]; lia).
  rewrite fuzzy_io_callback_chunk.
  cbn [accept_session session_pos session_cmd session_fd app].
  destruct (Z.eqb_spec (0 + Z.of_nat (List.length (List.concat chunks)))
              sizeof_fuzzy_cmd) as [_|Hne]; [|lia].
  destruct (process_fuzzy_command_acts wr now nfd
              (fuzzy_cmd_of_bytes (List.concat chunks)) st)
    as (line & Hacts & Hline).
  destruct (process_fuzzy_command wr now nfd
              (fuzzy_cmd_of_bytes (List.concat chunks)) st) as [st1 acts1].
  cbn [fst snd] in *. exists line. split; [exact Hline|].
  rewrite Hacts. reflexivity.
Qed.

End Sessions_more.

(** * The further properties on concrete runs *)

Import Scenario_more.

Local Abbreviation ahead_sync :=
  (sync_cache (E := Model.externals) conf open_always 1000 st_ahead).

Lemma model_bit_set_app (l b : list Z) (i : Z) :
  Model.bit_set (l ++ b) i = (Model.bit_set l i || Model.bit_set b i)%bool.
Proof. unfold Model.bit_set. apply existsb_app. Qed.

Lemma model_add_reports (b : list Z) (p : list byte) :
  Model.bloom_check (Model.bloom_add b p) p = true.
Proof.
  unfold Model.bloom_check, Model.bloom_add. apply forallb_forall.
  intros i Hi. rewrite model_bit_set_app. apply orb_true_iff. left.
  unfold Model.bit_set. apply existsb_exists. exists i.
  split; [exact Hi | apply Z.eqb_refl].
Qed.

Lemma model_add_monotone (b : list Z) (p q : list byte) :
  Model.bloom_check b q = true ->
  Model.bloom_check (Model.bloom_add b p) q = true.
Proof.
  unfold Model.bloom_check, Model.bloom_add. rewrite !forallb_forall.
  intros Hq i Hi. rewrite model_bit_set_app, (Hq i Hi). apply orb_true_r.
Qed.

Lemma empty_partitioned : partitioned (hashes Model.empty).
Proof. intros i n []. Qed.

Lemma st_ab_partitioned : partitioned (hashes st_ab).
Proof.
  apply (process_write_partitioned (E := Model.externals) 1001 write_b st_a).
  apply (process_write_partitioned (E := Model.externals) 1000 write_a
           Model.empty).
  exact empty_partitioned.
Qed.

Lemma ahead_sync_written :
  snd ahead_sync = Some ("fuzzy.db"%string, [node_a]).
Proof. vm_compute. reflexivity. Qed.

Lemma ahead_sync_eq :
  ahead_sync = (fst ahead_sync, Some ("fuzzy.db"%string, [node_a])).
Proof. rewrite <- ahead_sync_written. apply surjective_pairing. Qed.

Lemma callback_keeps_partition_witness :
  block_size (node_h node_a) mod BUCKETS = 128.
Proof.
  apply (callback_keeps_partition (E := Model.externals) EV_READ
           (mk_sock_read 62 frame_a_tail) 4 1000 session_10 Model.empty
           empty_partitioned 128 node_a).
  vm_compute. left. reflexivity.
Defined.

Lemma sync_keeps_partition_witness :
  block_size (node_h node_b) mod BUCKETS = 128.
Proof.
  destruct (sync_keeps_partition (E := Model.externals) conf open_always
              now_late st_full st_ab_partitioned) as [Htimer _].
  apply (Htimer 128 node_b).
  vm_compute. left. reflexivity.
Defined.

Lemma delete_then_check_witness :
  fst (process_check_command (E := Model.externals) check_a
         (snd (process_delete_command (E := Model.externals) delete_a st_ab)))
  = false.
Proof.
  apply (delete_then_check (E := Model.externals) delete_a check_a st_ab);
    reflexivity.
Defined.

Lemma write_twice_witness :
  process_write_command (E := Model.externals) 1002 write_a
    (snd (process_write_command (E := Model.externals) 1000 write_a
            Model.empty))
  = (false,
     snd (process_write_command (E := Model.externals) 1000 write_a
            Model.empty)).
Proof.
  apply (write_twice (E := Model.externals) 1000 1002 write_a write_a
           Model.empty).
  - vm_compute. reflexivity.
  - reflexivity.
Defined.

Lemma write_then_delete_witness :
  fst (process_delete_command (E := Model.externals) delete_a
         (snd (process_write_command (E := Model.externals) 1000 write_a
                 Model.empty))) = true /\
  hashes
    (snd (process_delete_command (E := Model.externals) delete_a
            (snd (process_write_command (E := Model.externals) 1000 write_a
                    Model.empty))))
    (cmd_blocksize write_a mod BUCKETS)
  = filter (fun n => negb (matches (E := Model.externals) write_a n))
      (hashes Model.empty (cmd_blocksize write_a mod BUCKETS)).
Proof.
  destruct (write_then_delete (E := Model.externals) 1000 write_a delete_a
              Model.empty) as (Hres & Hbucket & _).
  - vm_compute. reflexivity.
  - reflexivity.
  - reflexivity.
  - vm_compute. reflexivity.
  - vm_compute. reflexivity.
  - split; [exact Hres | exact Hbucket].
Defined.

Lemma write_keeps_found_witness :
  fst (process_check_command (E := Model.externals) check_a
         (snd (process_write_command (E := Model.externals) 1001 write_b
                 st_a))) = true.
Proof.
  apply (write_keeps_found (E := Model.externals) 1001 write_b check_a st_a).
  - vm_compute. reflexivity.
  - vm_compute. reflexivity.
Defined.

Lemma reply_err_keeps_store_witness :
  process_fuzzy_command (E := Model.externals) (-1) 1000 7 unknown_a st_a
    = (st_a, Act_process unknown_a :: write_reply 7 (-1) reply_err) /\
  mods (fst (process_fuzzy_command (E := Model.externals) (-1) 1002 7
               write_a st_a))
    = mods st_a.
Proof.
  destruct (reply_err_keeps_store (E := Model.externals) (-1) 1000 7
              unknown_a st_a) as [Hunknown _].
  destruct (reply_err_keeps_store (E := Model.externals) (-1) 1002 7
              write_a st_a) as [_ Herr].
  split.
  - apply Hunknown; intros H; vm_compute in H; discriminate H.
  - destruct Herr as (_ & Hmods & _); [|exact Hmods].
    vm_compute. right. left. reflexivity.
Defined.

Lemma sync_cache_skips_witness :
  fst (sync_cache (E := Model.externals) conf open_always now_late st_ab)
  = st_ab.
Proof.
  destruct (sync_cache_skips (E := Model.externals) conf open_always now_late
              st_ab) as [Hiff Hsame].
  apply Hsame. apply Hiff. left. vm_compute. reflexivity.
Defined.

Lemma sigterm_forces_rewrite_witness :
  mods (fst (sigterm_handler (E := Model.externals) conf open_always now_late
               st_ab)) = MOD_LIMIT + 1 /\
  snd (sigterm_handler (E := Model.externals) conf open_always now_late st_ab)
  = Some ("fuzzy.db"%string,
          filter
            (fresh (wrap64 now_late) (expire_of (E := Model.externals) conf))
            (walk_order (hashes st_ab) all_buckets)).
Proof.
  destruct (sigterm_forces_rewrite (E := Model.externals) conf open_always
              now_late st_ab) as [Hmods Hfile].
  split; [exact Hmods|]. apply Hfile; reflexivity.
Defined.

Lemma sync_file_is_index_witness :
  [node_b] = walk_order (hashes (fst late_sync)) all_buckets.
Proof.
  exact (sync_file_is_index (E := Model.externals) conf open_always now_late
           st_full (fst late_sync) "fuzzy.db"%string [node_b] late_sync_eq).
Defined.

Lemma sync_twice_witness :
  exists st'',
    sync_cache (E := Model.externals) conf open_always now_late (fst late_sync)
    = (st'', Some ("fuzzy.db"%string, [node_b])) /\
    bf st'' = bf (fst late_sync) /\ mods st'' = mods (fst late_sync) /\
    forall j, hashes st'' j = hashes (fst late_sync) j.
Proof.
  exact (sync_twice (E := Model.externals) conf open_always now_late
           st_full (fst late_sync) "fuzzy.db"%string [node_b] late_sync_eq).
Defined.

Lemma sync_drops_future_stamps_witness :
  ~ In node_ahead (hashes (fst ahead_sync) 128) /\ ~ In node_ahead [node_a].
Proof.
  apply (sync_drops_future_stamps (E := Model.externals) conf open_always
           1000 st_ahead (fst ahead_sync) "fuzzy.db"%string [node_a] 128
           node_ahead ahead_sync_eq).
  - unfold BUCKETS. lia.
  - vm_compute. left. reflexivity.
  - vm_compute. split; reflexivity.
  - vm_compute. reflexivity.
Defined.

Lemma reload_reverses_witness :
  fst (read_hashes_file (E := Model.externals) conf open_saved Model.empty)
    = true /\
  hashes (snd (read_hashes_file (E := Model.externals) conf open_saved
                 Model.empty)) 128
  = rev (hashes (fst late_sync) 128).
Proof.
  destruct (reload_reverses (E := Model.externals) conf open_always open_saved
              now_late st_full (fst late_sync) "fuzzy.db"%string [node_b]
              Model.empty st_ab_partitioned late_sync_eq eq_refl)
    as (Hres & Hrev & _).
  split; [exact Hres|]. apply Hrev. unfold BUCKETS. lia.
Defined.

Lemma load_fails_only_witness :
  fst (read_hashes_file (E := Model.externals) conf open_error Model.empty)
  = false.
Proof.
  apply (load_fails_only (E := Model.externals) conf open_error Model.empty).
  right. right. exists "fuzzy.db"%string, reads_error.
  split; [reflexivity|]. split; [reflexivity|]. vm_compute. reflexivity.
Defined.

Lemma write_keeps_bloom_sound_witness :
  bloom_check (Externals := Model.externals)
    (bf (snd (process_write_command (E := Model.externals) 1001 write_b st_a)))
    (hash_pipe (node_h node_a)) = true.
Proof.
  apply (write_keeps_bloom_sound (E := Model.externals) 1001 write_b st_a
           model_add_reports model_add_monotone) with (i := 128).
  - apply (write_keeps_bloom_sound (E := Model.externals) 1000 write_a
             Model.empty model_add_reports model_add_monotone).
    intros i n [].
  - vm_compute. right. left. reflexivity.
Defined.

Lemma load_bloom_sound_witness :
  bloom_check (Externals := Model.externals)
    (bf (snd (read_hashes_file (E := Model.externals) conf open_reads
                Model.empty)))
    (hash_pipe (node_h node_a)) = true.
Proof.
  apply (load_bloom_sound (E := Model.externals) conf open_reads Model.empty
           model_add_reports model_add_monotone 128 node_a).
  vm_compute. right. left. reflexivity.
Defined.

Lemma connection_one_reply_witness :
  exists line,
    (line = reply_ok \/ line = reply_err) /\
    session_feed (E := Model.externals) (-1) 1000
      (map chunk_read [frame_a_head; frame_a_tail]) (accept_session 7)
      Model.empty
    = (None,
       fst (process_fuzzy_command (E := Model.externals) (-1) 1000 7
              (fuzzy_cmd_of_bytes (Externals := Model.externals)
                 (List.concat [frame_a_head; frame_a_tail])) Model.empty),
       (Act_process
          (fuzzy_cmd_of_bytes (Externals := Model.externals)
             (List.concat [frame_a_head; frame_a_tail]))
        :: write_reply 7 (-1) line)
       ++ [Act_event_del 7; Act_close 7]).
Proof.
  apply (connection_one_reply (E := Model.externals) (-1) 1000 7
           [frame_a_head; frame_a_tail] (accept_session 7) Model.empty).
  - reflexivity.
  - vm_compute. reflexivity.
  - vm_compute. reflexivity.
Defined.
